(** * commitment_set.py: liveness masks, run-length encoding and a
    self-describing Huffman code

    A shallow embedding of [src/commitment_set.py] together with the part of
    Python's [heapq] and [collections.Counter] that [for_symbols] calls.

    Conventions of the embedding.
    - Python integers are unbounded; symbols and counts are non-negative and
      live in [N], list indices and loop counters in [nat].
    - A bit list is a [list bool]; a mask holds [bool]s ([random] fills it
      with the integers 0 and 1, which Python takes for [False] and
      [True]).
    - A Python [str] is a list of Unicode code points, [list N], where a
      caller hands it in: the argument of [from_bit_string].  The strings
      the code itself puts together, of ['0'] and ['1'] alone, are
      [string]s, and [code_points] gives the [str] such a [string] stands
      for.  What [int] makes of a character past ASCII is up to the
      Unicode database of the interpreter, which is a parameter of the
      model.
    - A call that can raise returns a [result]: [Returned v], [Raised e] for
      the Python exception class [e], or [OutOfFuel] when a loop was cut by
      its fuel.  Loops whose trip count is bounded by their input get that
      bound as fuel, and never run out; the symbol loop of
      [huffman_decompress] is not bounded so, and takes its fuel from the
      caller.
    - A list that Python mutates in place ([bits.pop(0)], the heap) is
      threaded through the calls: a function returns the list it leaves
      behind next to its value.
    - [random.shuffle] draws from a generator that is a parameter of the
      model.
    - The interpreter's recursion limit and memory are not modelled: what
      is said of a call is said of the runs that stay within them.  Nor is
      the command-line driver modelled. *)

From Stdlib Require Import NArith Ascii String DecimalString.
From stdpp Require Import base tactics option list numbers gmap.

Local Open Scope N_scope.
Local Open Scope nat_scope.

(** ** Exceptions and results *)

Inductive exn : Set :=
  | IndexError | KeyError | ValueError | TypeError | AttributeError.

Inductive result (A : Type) : Type :=
  | Returned (a : A)
  | Raised (e : exn)
  | OutOfFuel.
Arguments Returned {A} a.
Arguments Raised {A} e.
Arguments OutOfFuel {A}.

Definition bind {A B} (m : result A) (k : A → result B) : result B :=
  match m with
  | Returned a => k a
  | Raised e => Raised e
  | OutOfFuel => OutOfFuel
  end.

Notation "x <- m ;; k" := (bind m (λ x, k))
  (at level 20, m at level 99, k at level 200, only parsing).
Notation "' pat <- m ;; k" := (bind m (λ x, match x with pat => k end))
  (at level 20, pat pattern, m at level 99, k at level 200, only parsing).

(** [finished r]: the call came to an end, by returning or by raising. *)
Definition finished {A} (r : result A) : Prop :=
  match r with OutOfFuel => False | _ => True end.

(** What a fuelled run [run : nat → result A] amounts to. *)
Definition returns {A} (run : nat → result A) (v : A) : Prop :=
  ∃ fuel, ∀ fuel', fuel ≤ fuel' → run fuel' = Returned v.
Definition raises {A} (run : nat → result A) (e : exn) : Prop :=
  ∃ fuel, ∀ fuel', fuel ≤ fuel' → run fuel' = Raised e.
Definition diverges {A} (run : nat → result A) : Prop :=
  ∀ fuel, run fuel = OutOfFuel.

(** ** Python lists *)

Section PyList.
Context {A : Type}.

(** [l[i]] *)
Definition getitem (l : list A) (i : nat) : result A :=
  match l !! i with
  | Some x => Returned x
  | None => Raised IndexError
  end.

(** [l[i] = x] *)
Definition setitem (l : list A) (i : nat) (x : A) : result (list A) :=
  if decide (i < length l) then Returned (<[i:=x]> l) else Raised IndexError.

(** [l.pop(0)]: the first element and the list left behind. *)
Definition pop0 (l : list A) : result (A * list A) :=
  match l with
  | [] => Raised IndexError
  | x :: l' => Returned (x, l')
  end.

(** [l.pop()]: the last element and the list left behind. *)
Definition pop (l : list A) : result (A * list A) :=
  match last l with
  | None => Raised IndexError
  | Some x => Returned (x, take (length l - 1) l)
  end.

(** [enumerate(l)], counting from [start]. *)
Fixpoint enumerate_from (start : nat) (l : list A) : list (nat * A) :=
  match l with
  | [] => []
  | x :: l' => (start, x) :: enumerate_from (S start) l'
  end.
Definition enumerate (l : list A) : list (nat * A) := enumerate_from 0 l.
End PyList.

(** [sum(l)] *)
Definition sum (l : list N) : N := foldl N.add 0%N l.

(** ** Bit lists: [int_to_bit_list], [bit_list_to_int] *)

(** The body of [while n:], run at most [fuel] times. *)
Fixpoint int_to_bit_list_loop (fuel : nat) (n : N) (bits : list bool)
  : list bool :=
  match fuel with
  | O => bits
  | S fuel =>
      if (n =? 0)%N then bits
      else int_to_bit_list_loop fuel (N.shiftr n 1)
             (bits ++ [negb (N.land n 1 =? 0)%N])
  end.

(** [n] has [N.size_nat n] binary digits, and the loop drops one per turn. *)
Definition int_to_bit_list (n : N) : list bool :=
  int_to_bit_list_loop (N.size_nat n) n [].

Definition bit_list_to_int (bits : list bool) : N :=
  sum (map (λ '(i, b), (2 ^ N.of_nat i * N.b2n b)%N) (enumerate bits)).

(** ** Huffman code trees

    [left] and [right] are taken by [sumbool]; the children are [left_] and
    [right_]. *)

(** [count] is [None] for a tree read back from a bit list. *)
Inductive HuffmanCodeTree : Set :=
  | HuffmanCodeLeaf (count : option N) (symbol : N)
  | NonLeaf (count : option N) (left_ right_ : HuffmanCodeTree).

Definition count (t : HuffmanCodeTree) : option N :=
  match t with
  | HuffmanCodeLeaf c _ => c
  | NonLeaf c _ _ => c
  end.

(** [HuffmanCodeNonLeaf.__init__] *)
Definition HuffmanCodeNonLeaf (left_ right_ : HuffmanCodeTree)
  : HuffmanCodeTree :=
  match count left_, count right_ with
  | Some cl, Some cr => NonLeaf (Some (cl + cr)%N) left_ right_
  | _, _ => NonLeaf None left_ right_
  end.

(** Comparing with a count of [None] raises [TypeError]. *)
Definition __lt__ (self other : HuffmanCodeTree) : result bool :=
  match count self, count other with
  | Some c, Some c' => Returned (c <? c')%N
  | _, _ => Raised TypeError
  end.

(** [symbol_prefix_map_helper]: [result] is the dict filled so far. *)
Fixpoint symbol_prefix_map_helper (self : HuffmanCodeTree)
    (prefix : list bool) (result : gmap N (list bool)) : gmap N (list bool) :=
  match self with
  | HuffmanCodeLeaf _ symbol => <[symbol := prefix]> result
  | NonLeaf _ left_ right_ =>
      let result := symbol_prefix_map_helper left_ (prefix ++ [false]) result in
      symbol_prefix_map_helper right_ (prefix ++ [true]) result
  end.

Definition symbol_prefix_map (self : HuffmanCodeTree) : gmap N (list bool) :=
  symbol_prefix_map_helper self [] ∅.

Fixpoint serialize (self : HuffmanCodeTree) : list bool :=
  match self with
  | HuffmanCodeLeaf _ symbol =>
      let bits := [true] in
      let symbol_bits := int_to_bit_list symbol in
      let bits := foldl (λ bits _, bits ++ [false]) bits symbol_bits in
      let bits := bits ++ [true] in
      bits ++ symbol_bits
  | NonLeaf _ left_ right_ =>
      let bits := [false] in
      let bits := bits ++ serialize left_ in
      bits ++ serialize right_
  end.

(** [while not bits.pop(0): symbol_len += 1] *)
Fixpoint parse_leaf_len (bits : list bool) (symbol_len : nat)
  : result (nat * list bool) :=
  match bits with
  | [] => Raised IndexError
  | b :: bits =>
      if negb b then parse_leaf_len bits (S symbol_len)
      else Returned (symbol_len, bits)
  end.

(** The slice [bits[:symbol_len]] does not raise when [bits] is short. *)
Definition parse_leaf (bits : list bool)
  : result (HuffmanCodeTree * list bool) :=
  '(symbol_len, bits) <- parse_leaf_len bits 0 ;;
  let symbol := bit_list_to_int (take symbol_len bits) in
  let bits := drop symbol_len bits in
  Returned (HuffmanCodeLeaf None symbol, bits).

(** [HuffmanCodeTree.parse] with [parse_non_leaf] inlined; [fuel] bounds the
    depth of the recursion. *)
Fixpoint parse_fuel (fuel : nat) (bits : list bool)
  : result (HuffmanCodeTree * list bool) :=
  match fuel with
  | O => OutOfFuel
  | S fuel =>
      '(leaf, bits) <- pop0 bits ;;
      if leaf : bool then parse_leaf bits
      else
        '(left_, bits) <- parse_fuel fuel bits ;;
        '(right_, bits) <- parse_fuel fuel bits ;;
        Returned (HuffmanCodeNonLeaf left_ right_, bits)
  end.

(** Every call pops a bit before it recurses, so the depth stays below
    [S (length bits)]. *)
Definition parse (bits : list bool) : result (HuffmanCodeTree * list bool) :=
  parse_fuel (S (length bits)) bits.

(** ** Loops over a list *)

(** [for x in l: s = body(s, x)] *)
Fixpoint for_each {State Item} (body : State → Item → result State)
    (s : State) (l : list Item) : result State :=
  match l with
  | [] => Returned s
  | x :: l' => s <- body s x ;; for_each body s l'
  end.

(** [[f(x) for x in l]] *)
Fixpoint comprehension {Item Out} (f : Item → result Out) (l : list Item)
  : result (list Out) :=
  match l with
  | [] => Returned []
  | x :: l' => y <- f x ;; ys <- comprehension f l' ;; Returned (y :: ys)
  end.

(** ** [heapq]: the list-based binary min-heap of the standard library *)

Module heapq.
Section heapq.
(** [item_lt a b] is [a < b] on the items of the heap. *)
Context {A : Type} (item_lt : A → A → result bool).

(** The [while pos > startpos] loop of [_siftdown]; it leaves the position
    where [newitem] is to be stored. *)
Fixpoint siftdown_loop (fuel : nat) (heap : list A) (startpos pos : nat)
    (newitem : A) {struct fuel} : result (list A * nat) :=
  if decide (startpos < pos) then
    match fuel with
    | O => OutOfFuel
    | S fuel =>
        let parentpos := Nat.shiftr (pos - 1) 1 in
        parent <- getitem heap parentpos ;;
        smaller <- item_lt newitem parent ;;
        if smaller : bool then
          heap <- setitem heap pos parent ;;
          siftdown_loop fuel heap startpos parentpos newitem
        else Returned (heap, pos)
    end
  else Returned (heap, pos).

(** [_siftdown(heap, startpos, pos)]; [pos] shrinks on every turn. *)
Definition siftdown (heap : list A) (startpos pos : nat)
  : result (list A) :=
  newitem <- getitem heap pos ;;
  '(heap, pos) <- siftdown_loop pos heap startpos pos newitem ;;
  setitem heap pos newitem.

(** The [while childpos < endpos] loop of [_siftup]. *)
Fixpoint siftup_loop (fuel : nat) (heap : list A) (endpos pos childpos : nat)
    {struct fuel} : result (list A * nat) :=
  if decide (childpos < endpos) then
    match fuel with
    | O => OutOfFuel
    | S fuel =>
        let rightpos := childpos + 1 in
        childpos <-
          (if decide (rightpos < endpos) then
             child <- getitem heap childpos ;;
             right_ <- getitem heap rightpos ;;
             smaller <- item_lt child right_ ;;
             Returned (if negb smaller then rightpos else childpos)
           else Returned childpos) ;;
        child <- getitem heap childpos ;;
        heap <- setitem heap pos child ;;
        let pos := childpos in
        siftup_loop fuel heap endpos pos (2 * pos + 1)
    end
  else Returned (heap, pos).

(** [_siftup(heap, pos)]; [childpos] grows on every turn and stays below
    [len(heap)]. *)
Definition siftup (heap : list A) (pos : nat) : result (list A) :=
  let endpos := length heap in
  let startpos := pos in
  newitem <- getitem heap pos ;;
  let childpos := 2 * pos + 1 in
  '(heap, pos) <- siftup_loop endpos heap endpos pos childpos ;;
  heap <- setitem heap pos newitem ;;
  siftdown heap startpos pos.

Definition heappush (heap : list A) (item : A) : result (list A) :=
  let heap := heap ++ [item] in
  siftdown heap 0 (length heap - 1).

(** The popped item and the heap left behind. *)
Definition heappop (heap : list A) : result (A * list A) :=
  '(lastelt, heap) <- pop heap ;;
  match heap with
  | _ :: _ =>
      returnitem <- getitem heap 0 ;;
      heap <- setitem heap 0 lastelt ;;
      heap <- siftup heap 0 ;;
      Returned (returnitem, heap)
  | [] => Returned (lastelt, heap)
  end.

Definition heapify (x : list A) : result (list A) :=
  let n := length x in
  for_each siftup x (reverse (seq 0 (n / 2))).
End heapq.
End heapq.

(** ** [collections.Counter] over an insertion-ordered dict *)

(** [d.get(key, default)] *)
Fixpoint dict_get (d : list (N * N)) (key default : N) : N :=
  match d with
  | [] => default
  | (k, v) :: d' => if decide (k = key) then v else dict_get d' key default
  end.

(** [d[key] = value]: a known key keeps its place, a new one goes last. *)
Fixpoint dict_setitem (d : list (N * N)) (key value : N) : list (N * N) :=
  match d with
  | [] => [(key, value)]
  | (k, v) :: d' =>
      if decide (k = key) then (k, value) :: d'
      else (k, v) :: dict_setitem d' key value
  end.

(** [Counter(symbols).items()], in order of first occurrence. *)
Definition Counter (symbols : list N) : list (N * N) :=
  foldl (λ self elem, dict_setitem self elem (dict_get self elem 0 + 1)%N)
        [] symbols.

(** ** [HuffmanCodeTree.for_symbols] *)

(** The [while len(trees) > 1] loop. *)
Fixpoint for_symbols_loop (fuel : nat) (trees : list HuffmanCodeTree)
    {struct fuel} : result (list HuffmanCodeTree) :=
  if decide (1 < length trees) then
    match fuel with
    | O => OutOfFuel
    | S fuel =>
        '(left_, trees) <- heapq.heappop __lt__ trees ;;
        '(right_, trees) <- heapq.heappop __lt__ trees ;;
        trees <- heapq.heappush __lt__ trees (HuffmanCodeNonLeaf left_ right_) ;;
        for_symbols_loop fuel trees
    end
  else Returned trees.

(** Every turn of the loop takes one tree off the heap. *)
Definition for_symbols (symbols : list N) : result HuffmanCodeTree :=
  let counts := Counter symbols in
  let trees :=
    map (λ '(symbol, count), HuffmanCodeLeaf (Some count) symbol) counts in
  trees <- heapq.heapify __lt__ trees ;;
  trees <- for_symbols_loop (length trees) trees ;;
  getitem trees 0.

(** ** [huffman_compress], [huffman_decompress] *)

(** [d[key]] on the codeword map. *)
Definition lookup_codeword (d : gmap N (list bool)) (key : N)
  : result (list bool) :=
  match d !! key with
  | Some v => Returned v
  | None => Raised KeyError
  end.

Definition huffman_compress (symbols : list N) : result (list bool) :=
  code_tree <- for_symbols symbols ;;
  let symbol_prefix_map := symbol_prefix_map code_tree in
  let bits := serialize code_tree in
  for_each (λ bits symbol,
              codeword <- lookup_codeword symbol_prefix_map symbol ;;
              Returned (bits ++ codeword))
           bits symbols.

(** [while isinstance(node, HuffmanCodeNonLeaf)]: the node where the descent
    stops and the bits left. *)
Fixpoint walk (node : HuffmanCodeTree) (bits : list bool)
  : result (HuffmanCodeTree * list bool) :=
  match node with
  | NonLeaf _ left_ right_ =>
      '(branch, bits) <- pop0 bits ;;
      if branch : bool then walk right_ bits else walk left_ bits
  | HuffmanCodeLeaf _ _ => Returned (node, bits)
  end.

(** [node.symbol] *)
Definition symbol (node : HuffmanCodeTree) : result N :=
  match node with
  | HuffmanCodeLeaf _ symbol => Returned symbol
  | NonLeaf _ _ _ => Raised AttributeError
  end.

(** The [while bits] loop, cut after [fuel] turns. *)
Fixpoint decompress_loop (fuel : nat) (code_tree : HuffmanCodeTree)
    (bits : list bool) (symbols : list N) {struct fuel} : result (list N) :=
  match bits with
  | [] => Returned symbols
  | _ :: _ =>
      match fuel with
      | O => OutOfFuel
      | S fuel =>
          '(node, bits) <- walk code_tree bits ;;
          symbol <- symbol node ;;
          decompress_loop fuel code_tree bits (symbols ++ [symbol])
      end
  end.

Definition huffman_decompress (fuel : nat) (bits : list bool)
  : result (list N) :=
  '(code_tree, bits) <- parse bits ;;
  decompress_loop fuel code_tree bits [].

(** ** [LivenessMask] *)

Record LivenessMask : Set := { mask : list bool }.

Local Open Scope string_scope.

(** [str(n)] *)
Definition str (n : N) : string := NilEmpty.string_of_uint (N.to_uint n).

(** The [str] a [string] stands for, one code point per character. *)
Definition code_points (s : string) : list N :=
  map N_of_ascii (list_ascii_of_string s).

(** [s.split(sep)] for a separator of one character. *)
Fixpoint split (sep : ascii) (s : string) : list string :=
  match s with
  | EmptyString => [""]
  | String c s' =>
      if decide (c = sep) then "" :: split sep s'
      else match split sep s' with
           | piece :: pieces => String c piece :: pieces
           | [] => [String c ""]
           end
  end.

(** [s * n] *)
Fixpoint string_mul (s : string) (n : nat) : string :=
  match n with
  | O => ""
  | S n => s ++ string_mul s n
  end.

(** [__repr__]; [String.concat sep l] is [sep.join(l)]. *)
Definition repr (self : LivenessMask) : string :=
  String.concat "" (map (λ bit : bool, str (N.b2n bit)) (mask self)).

Definition to_rle (self : LivenessMask) : list N :=
  map (λ zero_run, N.of_nat (String.length zero_run)) (split "1" (repr self)).

Definition compress (self : LivenessMask) : result (list bool) :=
  huffman_compress (to_rle self).

Section unicode.
(** The decimal digits of the Unicode database, those of every script
    (category Nd): [decimal c] is the value of the character [c] as a
    decimal digit, and [None] when [c] is not one. *)
Context (decimal : N → option N).

(** [int(c)] for a string [c] of one character.  An ASCII character is one
    of ['0'] to ['9'], or [int] raises [ValueError] (a sign, a blank, a
    letter, an underscore); a character past ASCII is looked up in the
    database, and has the value it finds there or raises [ValueError]. *)
Definition int (c : N) : result N :=
  if (c <? 128)%N then
    if ((48 <=? c) && (c <=? 57))%N then Returned (c - 48)%N
    else Raised ValueError
  else
    match decimal c with
    | Some value => Returned value
    | None => Raised ValueError
    end.

Definition from_bit_string (bit_string : list N) : result LivenessMask :=
  mask <- comprehension (λ bit, n <- int bit ;; Returned (negb (n =? 0)%N))
            bit_string ;;
  Returned {| mask := mask |}.

Definition from_rle (rle : list N) : result LivenessMask :=
  let bit_string :=
    String.concat "1" (map (λ zero_run, string_mul "0" (N.to_nat zero_run)) rle)
  in
  from_bit_string (code_points bit_string).

Definition decompress (fuel : nat) (bits : list bool) : result LivenessMask :=
  symbols <- huffman_decompress fuel bits ;;
  from_rle symbols.
End unicode.

Local Close Scope string_scope.

(** ** [random.shuffle] and [LivenessMask.random]

    The generator is a state [g] threaded through the calls;
    [randbelow g n] is the draw below [n] and the state after it. *)

(** [l * n]: nothing for a negative [n]. *)
Definition list_mul {A} (l : list A) (n : Z) : list A :=
  concat (replicate (Z.to_nat n) l).

(** [x[i], x[j] = x[j], x[i]] *)
Definition swap_items {A} (x : list A) (i j : nat) : result (list A) :=
  xj <- getitem x j ;;
  xi <- getitem x i ;;
  x <- setitem x i xj ;;
  setitem x j xi.

Section random.
Context {G : Type} (randbelow : G → nat → nat * G).

(** [for i in reversed(range(1, len(x)))]: exchange [x[i]] with an element
    of [x[:i+1]]. *)
Definition shuffle {A} (g : G) (x : list A) : result (list A * G) :=
  for_each (λ '(x, g) i,
              let '(j, g) := randbelow g (i + 1) in
              x <- swap_items x i j ;;
              Returned (x, g))
           (x, g) (reverse (seq 1 (length x - 1))).

Definition random (g : G) (total_commitments live_commitments : Z)
  : result (LivenessMask * G) :=
  let consumed_commitments := (total_commitments - live_commitments)%Z in
  let mask :=
    list_mul [true] live_commitments ++ list_mul [false] consumed_commitments in
  '(mask, g) <- shuffle g mask ;;
  Returned ({| mask := mask |}, g).
End random.

(** * Notions used in the statements *)

(** The binary digits of a positive number, least significant first. *)
Fixpoint pos_bits (p : positive) : list bool :=
  match p with
  | xH => [true]
  | xO p => false :: pos_bits p
  | xI p => true :: pos_bits p
  end.

Definition N_bits (n : N) : list bool :=
  match n with
  | N0 => []
  | Npos p => pos_bits p
  end.

(** The tree with every count forgotten, as [parse] builds it. *)
Fixpoint unweighted (t : HuffmanCodeTree) : HuffmanCodeTree :=
  match t with
  | HuffmanCodeLeaf _ symbol => HuffmanCodeLeaf None symbol
  | NonLeaf _ left_ right_ => NonLeaf None (unweighted left_) (unweighted right_)
  end.

Fixpoint depth (t : HuffmanCodeTree) : nat :=
  match t with
  | HuffmanCodeLeaf _ _ => 0
  | NonLeaf _ left_ right_ => S (depth left_ `max` depth right_)
  end.

(** The symbols at the leaves, left to right. *)
Fixpoint leaves (t : HuffmanCodeTree) : list N :=
  match t with
  | HuffmanCodeLeaf _ symbol => [symbol]
  | NonLeaf _ left_ right_ => leaves left_ ++ leaves right_
  end.

Definition is_leaf (t : HuffmanCodeTree) : Prop :=
  match t with
  | HuffmanCodeLeaf _ _ => True
  | NonLeaf _ _ _ => False
  end.

(** The symbol of the last leaf, the one [serialize] writes last. *)
Fixpoint last_symbol (t : HuffmanCodeTree) : N :=
  match t with
  | HuffmanCodeLeaf _ symbol => symbol
  | NonLeaf _ _ right_ => last_symbol right_
  end.

(** The tree with another symbol at its last leaf. *)
Fixpoint with_last_symbol (t : HuffmanCodeTree) (symbol : N)
  : HuffmanCodeTree :=
  match t with
  | HuffmanCodeLeaf c _ => HuffmanCodeLeaf c symbol
  | NonLeaf c left_ right_ => NonLeaf c left_ (with_last_symbol right_ symbol)
  end.

(** [isdecimal]: the decimal digits are ['0'] to ['9'] and, past ASCII, the
    characters the database has a value for. *)
Definition isdecimal (decimal : N → option N) (c : N) : bool :=
  bool_decide (c ∈ code_points "0123456789")
  || (128 <=? c)%N && bool_decide (is_Some (decimal c)).

(** The decimal digits of value 0: ['0'] and the zeros of the other
    scripts. *)
Definition iszero (decimal : N → option N) (c : N) : bool :=
  (c =? 48)%N || (128 <=? c)%N && bool_decide (decimal c = Some 0%N).

(** The Arabic-Indic digits U+0660 to U+0669, of the values 0 to 9: a part
    of the Unicode database, for the examples. *)
Definition arabic_indic_digits (c : N) : option N :=
  if ((1632 <=? c) && (c <=? 1641))%N then Some (c - 1632)%N else None.

(** The character that renders one element of a mask. *)
Definition bit_char (bit : bool) : ascii := if bit then "1"%char else "0"%char.

(** A tree that knows its count can be compared by [__lt__]. *)
Definition comparable (t : HuffmanCodeTree) : Prop := is_Some (count t).

(** No codeword of the map starts another symbol's codeword. *)
Definition prefix_free (d : gmap N (list bool)) : Prop :=
  ∀ s1 s2 c1 c2,
    d !! s1 = Some c1 → d !! s2 = Some c2 → s1 ≠ s2 → ¬ c1 `prefix_of` c2.

(** [p] is [l] cut short at its end by at least one element. *)
Definition proper_prefix {A} (p l : list A) : Prop :=
  ∃ k, k ≠ [] ∧ l = p ++ k.

(** How often [s] occurs in [symbols]. *)
Definition occurrences (symbols : list N) (s : N) : nat :=
  length (filter (λ x, x = s) symbols).

(** Every leaf carries the number [occ] gives its symbol, and every inner
    node the sum of the counts of its two children. *)
Fixpoint counted (occ : N → nat) (t : HuffmanCodeTree) : Prop :=
  match t with
  | HuffmanCodeLeaf c symbol => c = Some (N.of_nat (occ symbol))
  | NonLeaf c left_ right_ =>
      (∃ cl cr, count left_ = Some cl ∧ count right_ = Some cr
                ∧ c = Some (cl + cr)%N)
      ∧ counted occ left_ ∧ counted occ right_
  end.

(** The mask that has the zero runs [rle], with one live bit between two
    runs. *)
Fixpoint runs_mask (rle : list N) : list bool :=
  match rle with
  | [] => []
  | [zero_run] => replicate (N.to_nat zero_run) false
  | zero_run :: rle => replicate (N.to_nat zero_run) false ++ true :: runs_mask rle
  end.

(** *** The order of a heap *)

(** The index of the parent of [j]: [(j - 1) >> 1]. *)
Definition parent (j : nat) : nat := Nat.shiftr (j - 1) 1.

(** The item at [p], if any, is no larger than the item at [j], if any. *)
Definition edge_ordered {A} (key : A → N) (heap : list A) (p j : nat) : Prop :=
  ∀ x y, heap !! p = Some x → heap !! j = Some y → (key x ≤ key y)%N.

(** No item whose parent sits at [lo] or after is smaller than that
    parent; from [lo = 0] that is the heap invariant of [heapq]. *)
Definition heap_ordered_from {A} (key : A → N) (lo : nat) (heap : list A)
  : Prop :=
  ∀ j, 0 < j → lo ≤ parent j → edge_ordered key heap (parent j) j.

Definition heap_ordered {A} (key : A → N) (heap : list A) : Prop :=
  heap_ordered_from key 0 heap.

(** [heap_ordered_from] but for the slot [pos], whose item is on the move:
    the items around it are in order with one another, and the parent of
    [pos] is no larger than the children of [pos]. *)
Definition gap_ordered {A} (key : A → N) (lo : nat) (heap : list A)
    (pos : nat) : Prop :=
  (∀ j, 0 < j → lo ≤ parent j → parent j ≠ pos → j ≠ pos →
        edge_ordered key heap (parent j) j)
  ∧ (lo < pos → ∀ j, 0 < j → parent j = pos →
                     edge_ordered key heap (parent pos) j).

(** [j] is [s] or sits below [s] in the heap. *)
Inductive descends (s : nat) : nat → Prop :=
  | descends_refl : descends s s
  | descends_child j : 0 < j → descends s (parent j) → descends s j.

(** The count of a tree, 0 when it has none. *)
Definition weight (t : HuffmanCodeTree) : N := default 0%N (count t).

(** At every inner node the count of the left child is at most the count of
    the right child. *)
Fixpoint siblings_ordered (t : HuffmanCodeTree) : Prop :=
  match t with
  | HuffmanCodeLeaf _ _ => True
  | NonLeaf _ left_ right_ =>
      (∃ cl cr, count left_ = Some cl ∧ count right_ = Some cr ∧ (cl ≤ cr)%N)
      ∧ siblings_ordered left_ ∧ siblings_ordered right_
  end.

(** * Properties *)

(** ** Results *)

Lemma bind_Returned {A B} (m : result A) (k : A → result B) (v : B) :
  bind m k = Returned v ↔ ∃ a, m = Returned a ∧ k a = Returned v.
Proof.
  destruct m; simpl; split; try (intros (? & ? & ?)); try done; eauto.
  congruence.
Qed.

Lemma bind_finished {A B} (m : result A) (k : A → result B) :
  finished (bind m k) → finished m.
Proof. by destruct m. Qed.

Lemma Returned_inj {A} (a b : A) : Returned a = Returned b → a = b.
Proof. congruence. Qed.

(** A run that is over gives one outcome only. *)
Lemma returns_not_diverges {A} (run : nat → result A) v :
  returns run v → ¬ diverges run.
Proof. intros [n Hn] Hd. specialize (Hn n (le_n _)). rewrite Hd in Hn. done. Qed.

Lemma raises_not_diverges {A} (run : nat → result A) e :
  raises run e → ¬ diverges run.
Proof. intros [n Hn] Hd. specialize (Hn n (le_n _)). rewrite Hd in Hn. done. Qed.

Lemma returns_not_raises {A} (run : nat → result A) v e :
  returns run v → ¬ raises run e.
Proof.
  intros [n Hn] [m Hm].
  specialize (Hn (n `max` m) (Nat.le_max_l _ _)).
  specialize (Hm (n `max` m) (Nat.le_max_r _ _)). congruence.
Qed.

Lemma returns_inj {A} (run : nat → result A) v w :
  returns run v → returns run w → v = w.
Proof.
  intros [n Hn] [m Hm].
  specialize (Hn (n `max` m) (Nat.le_max_l _ _)).
  specialize (Hm (n `max` m) (Nat.le_max_r _ _)). congruence.
Qed.

(** ** Bit lists *)

Lemma int_to_bit_list_loop_pos fuel p bits :
  Pos.size_nat p ≤ fuel →
  int_to_bit_list_loop fuel (Npos p) bits = bits ++ pos_bits p.
Proof.
  revert p bits. induction fuel as [|fuel IH]; intros p bits Hfuel.
  { destruct p; simpl in Hfuel; lia. }
  destruct p as [p|p|]; simpl in *.
  - change (N.shiftr (N.pos p~1) 1) with (N.pos p).
    rewrite IH by lia. by rewrite <-app_assoc.
  - change (N.shiftr (N.pos p~0) 1) with (N.pos p).
    rewrite IH by lia. by rewrite <-app_assoc.
  - change (N.shiftr 1 1) with 0%N. by destruct fuel.
Qed.

(** The loop stops on [n = 0], never on its fuel. *)
Lemma int_to_bit_list_loop_enough fuel n bits :
  N.size_nat n ≤ fuel →
  int_to_bit_list_loop fuel n bits = bits ++ N_bits n.
Proof.
  destruct n as [|p]; simpl.
  - intros _. rewrite app_nil_r. by destruct fuel.
  - apply int_to_bit_list_loop_pos.
Qed.

Lemma int_to_bit_list_N_bits n : int_to_bit_list n = N_bits n.
Proof. unfold int_to_bit_list. by rewrite int_to_bit_list_loop_enough. Qed.

Lemma sum_from (l : list N) (a : N) : foldl N.add a l = (a + sum l)%N.
Proof.
  unfold sum. revert a. induction l as [|x l IH]; intros a; simpl.
  - lia.
  - rewrite IH, (IH (0 + x)%N). lia.
Qed.

Lemma bit_list_to_int_from (start : nat) (bits : list bool) :
  sum (map (λ '(i, b), (2 ^ N.of_nat i * N.b2n b)%N)
           (enumerate_from start bits))
  = (2 ^ N.of_nat start * bit_list_to_int bits)%N.
Proof.
  unfold bit_list_to_int, enumerate.
  revert start. induction bits as [|b bits IH]; intros start; simpl.
  - unfold sum; simpl. lia.
  - unfold sum at 1 2; simpl. rewrite !sum_from, IH, (IH 1).
    rewrite Nat2N.inj_succ, N.pow_succ_r'. simpl (N.of_nat 1). lia.
Qed.

Lemma bit_list_to_int_nil : bit_list_to_int [] = 0%N.
Proof. reflexivity. Qed.

Lemma bit_list_to_int_cons b bits :
  bit_list_to_int (b :: bits) = (N.b2n b + 2 * bit_list_to_int bits)%N.
Proof.
  unfold bit_list_to_int at 1, enumerate; simpl.
  unfold sum; simpl. rewrite sum_from, (bit_list_to_int_from 1). simpl. lia.
Qed.

Lemma bit_list_to_int_pos_bits p : bit_list_to_int (pos_bits p) = Npos p.
Proof.
  induction p as [p IH|p IH|]; simpl pos_bits;
    rewrite ?bit_list_to_int_cons, ?IH; simpl; try lia.
  reflexivity.
Qed.

(** [bit_list_to_int] undoes [int_to_bit_list]. *)
Lemma bit_list_to_int_to_bit_list n : bit_list_to_int (int_to_bit_list n) = n.
Proof.
  rewrite int_to_bit_list_N_bits. destruct n as [|p]; [done|].
  apply bit_list_to_int_pos_bits.
Qed.

(** ** Serialized trees *)

Lemma count_unweighted t : count (unweighted t) = None.
Proof. by destruct t. Qed.

Lemma unweighted_idemp t : unweighted (unweighted t) = unweighted t.
Proof. induction t; simpl; congruence. Qed.

Lemma leaves_unweighted t : leaves (unweighted t) = leaves t.
Proof. induction t; simpl; congruence. Qed.

Lemma unary_zeros {A} (l : list A) (bits : list bool) :
  foldl (λ bits _, bits ++ [false]) bits l
  = bits ++ replicate (length l) false.
Proof.
  revert bits. induction l as [|x l IH]; intros bits; simpl.
  - by rewrite app_nil_r.
  - rewrite IH, <-app_assoc. done.
Qed.

Lemma serialize_leaf c s :
  serialize (HuffmanCodeLeaf c s)
  = true :: replicate (length (int_to_bit_list s)) false
         ++ true :: int_to_bit_list s.
Proof. simpl. rewrite unary_zeros. simpl. by rewrite <-app_assoc. Qed.

Lemma serialize_unweighted t : serialize (unweighted t) = serialize t.
Proof. induction t; simpl; congruence. Qed.

Lemma depth_lt_serialize t : depth t < length (serialize t).
Proof.
  induction t as [c s|c l IHl r IHr].
  - rewrite serialize_leaf. simpl. lia.
  - simpl. rewrite length_app. lia.
Qed.

Lemma parse_leaf_len_zeros k rest n :
  parse_leaf_len (replicate k false ++ true :: rest) n = Returned (n + k, rest).
Proof.
  revert n. induction k as [|k IH]; intros n; simpl.
  - by rewrite Nat.add_0_r.
  - rewrite IH. do 2 f_equal. lia.
Qed.

Lemma parse_leaf_serialize s rest :
  parse_leaf (replicate (length (int_to_bit_list s)) false
              ++ true :: int_to_bit_list s ++ rest)
  = Returned (HuffmanCodeLeaf None s, rest).
Proof.
  unfold parse_leaf. rewrite parse_leaf_len_zeros. simpl.
  rewrite take_app_length, drop_app_length, bit_list_to_int_to_bit_list. done.
Qed.

Lemma parse_fuel_serialize t fuel rest :
  depth t < fuel →
  parse_fuel fuel (serialize t ++ rest) = Returned (unweighted t, rest).
Proof.
  revert fuel rest. induction t as [c s|c l IHl r IHr]; intros fuel rest Hfuel.
  - destruct fuel as [|fuel]; [lia|].
    rewrite serialize_leaf. simpl. rewrite <-app_assoc. simpl.
    apply parse_leaf_serialize.
  - destruct fuel as [|fuel]; [simpl in Hfuel; lia|].
    simpl in *. rewrite <-app_assoc, IHl by lia. simpl.
    rewrite IHr by lia. simpl.
    unfold HuffmanCodeNonLeaf. by rewrite !count_unweighted.
Qed.

Lemma parse_leaf_len_finished bits n : finished (parse_leaf_len bits n).
Proof.
  revert n. induction bits as [|[] bits IH]; intros n; simpl; auto.
Qed.

Lemma parse_leaf_len_length bits n k rest :
  parse_leaf_len bits n = Returned (k, rest) → length rest < length bits.
Proof.
  revert n. induction bits as [|[] bits IH]; intros n; simpl; try done.
  - intros [= <- <-]. lia.
  - intros H%IH. lia.
Qed.

Lemma parse_leaf_finished bits : finished (parse_leaf bits).
Proof.
  unfold parse_leaf. pose proof (parse_leaf_len_finished bits 0) as H.
  destruct (parse_leaf_len bits 0) as [[]| |]; done.
Qed.

Lemma parse_leaf_length bits t rest :
  parse_leaf bits = Returned (t, rest) → length rest ≤ length bits.
Proof.
  unfold parse_leaf. intros ([k bits'] & Hk & H)%bind_Returned.
  apply parse_leaf_len_length in Hk. simpl in H. injection H as <- <-.
  rewrite length_drop. lia.
Qed.

(** [parse] takes at least one bit. *)
Lemma parse_fuel_length fuel bits t rest :
  parse_fuel fuel bits = Returned (t, rest) → length rest < length bits.
Proof.
  revert bits t rest. induction fuel as [|fuel IH]; intros bits t rest; [done|].
  destruct bits as [|[] bits]; simpl; [done| |].
  - intros H%parse_leaf_length. lia.
  - intros ([l bits1] & Hl & H)%bind_Returned.
    apply bind_Returned in H as ([r bits2] & Hr & H).
    injection H as <- <-. apply IH in Hl, Hr. lia.
Qed.

(** With more fuel than bits the recursion is never cut. *)
Lemma parse_fuel_finished fuel bits :
  length bits < fuel → finished (parse_fuel fuel bits).
Proof.
  revert bits. induction fuel as [|fuel IH]; intros bits Hfuel; [lia|].
  destruct bits as [|[] bits]; simpl in *; [done|apply parse_leaf_finished|].
  pose proof (IH bits ltac:(lia)) as Hl.
  destruct (parse_fuel fuel bits) as [[l bits1]| |] eqn:El; simpl; try done.
  apply parse_fuel_length in El.
  pose proof (IH bits1 ltac:(lia)) as Hr.
  destruct (parse_fuel fuel bits1) as [[r bits2]| |]; done.
Qed.

Lemma parse_fuel_mono fuel fuel' bits :
  finished (parse_fuel fuel bits) → fuel ≤ fuel' →
  parse_fuel fuel' bits = parse_fuel fuel bits.
Proof.
  revert fuel' bits. induction fuel as [|fuel IH]; intros fuel' bits; [done|].
  intros Hfin Hle. destruct fuel' as [|fuel']; [lia|].
  destruct bits as [|[] bits]; simpl in *; try done.
  assert (finished (parse_fuel fuel bits)) as Hl by by eapply bind_finished.
  rewrite (IH fuel' bits Hl) by lia.
  destruct (parse_fuel fuel bits) as [[l bits1]| |]; simpl in *; try done.
  assert (finished (parse_fuel fuel bits1)) as Hr by by eapply bind_finished.
  rewrite (IH fuel' bits1 Hr) by lia. done.
Qed.

Lemma parse_enough fuel bits :
  length bits < fuel → parse bits = parse_fuel fuel bits.
Proof.
  intros Hfuel. unfold parse. symmetry. apply parse_fuel_mono; [|lia].
  apply parse_fuel_finished. lia.
Qed.

Lemma parse_finished bits : finished (parse bits).
Proof. apply parse_fuel_finished. lia. Qed.

Lemma parse_serialize_app t rest :
  parse (serialize t ++ rest) = Returned (unweighted t, rest).
Proof.
  unfold parse. apply parse_fuel_serialize.
  pose proof (depth_lt_serialize t). rewrite length_app. lia.
Qed.

(** C3. For every tree [t] and every bit list [rest], [parse] applied to
    [serialize t ++ rest] returns the tree of the same shape with the same
    symbol at every leaf and every count unknown ([unweighted t]), and the
    bits it leaves behind are exactly [rest]: it consumed the bits of
    [serialize t] and nothing more. *)
Theorem parse_serialize (t : HuffmanCodeTree) (rest : list bool) :
  parse (serialize t ++ rest) = Returned (unweighted t, rest)
  ∧ leaves (unweighted t) = leaves t
  ∧ depth (unweighted t) = depth t.
Proof.
  split_and!.
  - apply parse_serialize_app.
  - apply leaves_unweighted.
  - induction t; simpl; congruence.
Qed.

(** ** Codewords and the descent *)

(** An entry of the codeword map was there before, or it is [prefix]
    followed by a path on which [walk] comes down to a leaf of that symbol. *)
Lemma symbol_prefix_map_helper_lookup t prefix (d : gmap N (list bool)) s p :
  symbol_prefix_map_helper t prefix d !! s = Some p →
  d !! s = Some p
  ∨ ∃ q c, p = prefix ++ q
           ∧ ∀ rest, walk t (q ++ rest) = Returned (HuffmanCodeLeaf c s, rest).
Proof.
  revert prefix d. induction t as [c s'|c l IHl r IHr]; intros prefix d; simpl.
  - rewrite lookup_insert. case_decide as Hs.
    + intros [= <-]. subst s'. right. exists [], c. by rewrite app_nil_r.
    + auto.
  - intros [H|(q & c' & -> & Hq)]%IHr.
    + apply IHl in H as [H|(q & c' & -> & Hq)]; [by left|].
      right. exists (false :: q), c'. rewrite <-app_assoc. split; [done|].
      intros rest. simpl. apply Hq.
    + right. exists (true :: q), c'. rewrite <-app_assoc. split; [done|].
      intros rest. simpl. apply Hq.
Qed.

Lemma symbol_prefix_map_lookup t s p :
  symbol_prefix_map t !! s = Some p →
  ∃ c, ∀ rest, walk t (p ++ rest) = Returned (HuffmanCodeLeaf c s, rest).
Proof.
  intros [H|(q & c & -> & Hq)]%symbol_prefix_map_helper_lookup.
  - by rewrite lookup_empty in H.
  - by exists c.
Qed.

(** The keys of the codeword map are the symbols at the leaves. *)
Lemma symbol_prefix_map_helper_dom t prefix (d : gmap N (list bool)) s :
  is_Some (symbol_prefix_map_helper t prefix d !! s)
  ↔ s ∈ leaves t ∨ is_Some (d !! s).
Proof.
  revert prefix d. induction t as [c s'|c l IHl r IHr]; intros prefix d; simpl.
  - rewrite lookup_insert, list_elem_of_singleton.
    case_decide; subst; [|naive_solver]. split; eauto.
  - rewrite IHr, IHl, elem_of_app. tauto.
Qed.

Lemma symbol_prefix_map_dom t s :
  is_Some (symbol_prefix_map t !! s) ↔ s ∈ leaves t.
Proof.
  unfold symbol_prefix_map. rewrite symbol_prefix_map_helper_dom.
  rewrite lookup_empty. split; [intros [?|[? ?]]|]; auto; done.
Qed.

Lemma symbol_prefix_map_helper_unweighted t prefix d :
  symbol_prefix_map_helper (unweighted t) prefix d
  = symbol_prefix_map_helper t prefix d.
Proof.
  revert prefix d. induction t as [|c l IHl r IHr]; intros; simpl; [done|].
  by rewrite IHl, IHr.
Qed.

Lemma symbol_prefix_map_unweighted t :
  symbol_prefix_map (unweighted t) = symbol_prefix_map t.
Proof. apply symbol_prefix_map_helper_unweighted. Qed.

(** The codeword map of any tree is prefix-free. *)
Lemma symbol_prefix_map_prefix_free t : prefix_free (symbol_prefix_map t).
Proof.
  intros s1 s2 c1 c2 H1 H2 Hne [k ->].
  apply symbol_prefix_map_lookup in H1 as [d1 H1], H2 as [d2 H2].
  specialize (H1 (k ++ [])). specialize (H2 []).
  rewrite <-app_assoc, H1 in H2. congruence.
Qed.

(** Under an inner node every codeword has at least one bit. *)
Lemma symbol_prefix_map_nonempty t s p :
  ¬ is_leaf t → symbol_prefix_map t !! s = Some p → p ≠ [].
Proof.
  intros Ht [c H]%symbol_prefix_map_lookup ->. specialize (H []).
  destruct t; simpl in *; [tauto|done].
Qed.

(** A lone leaf gives its symbol the empty codeword. *)
Lemma symbol_prefix_map_leaf c s :
  symbol_prefix_map (HuffmanCodeLeaf c s) = {[ s := [] ]}.
Proof. reflexivity. Qed.

(** Under a lone leaf the codewords of a sequence add up to no bit. *)
Lemma codewords_leaf c s (symbols : list N) (codewords : list (list bool)) :
  Forall2 (λ s' c', symbol_prefix_map (HuffmanCodeLeaf c s) !! s' = Some c')
          symbols codewords →
  concat codewords = [].
Proof.
  induction 1 as [|x c' ? ? Hc _ IH]; [done|].
  simpl. rewrite IH, app_nil_r. rewrite symbol_prefix_map_leaf in Hc.
  by apply lookup_singleton_Some in Hc as [_ <-].
Qed.

Lemma is_leaf_unweighted t : is_leaf (unweighted t) ↔ is_leaf t.
Proof. by destruct t. Qed.

(** ** The two loops of the codec *)

(** The [for symbol in symbols] loop of [huffman_compress] appends the
    codewords in order, and raises [KeyError] at the first symbol that has
    none. *)
Lemma compress_loop_Returned (d : gmap N (list bool)) symbols bits :
  (∀ s, s ∈ symbols → is_Some (d !! s)) →
  ∃ codewords,
    Forall2 (λ s c, d !! s = Some c) symbols codewords
    ∧ for_each (λ bits symbol,
                  codeword <- lookup_codeword d symbol ;;
                  Returned (bits ++ codeword))
               bits symbols
      = Returned (bits ++ concat codewords).
Proof.
  revert bits. induction symbols as [|s symbols IH]; intros bits Hd.
  - exists []. simpl. by rewrite app_nil_r.
  - destruct (Hd s) as [c Hc]; [set_solver|].
    destruct (IH (bits ++ c)) as (cs & Hcs & Hrun); [set_solver|].
    exists (c :: cs). split; [by constructor|].
    simpl. unfold lookup_codeword at 1. rewrite Hc. simpl.
    by rewrite Hrun, <-app_assoc.
Qed.

(** Decoding the codewords of [symbols] under an inner node gives [symbols]
    back: one turn of the loop per symbol. *)
Lemma decompress_loop_codewords t symbols codewords acc fuel :
  ¬ is_leaf t →
  Forall2 (λ s c, symbol_prefix_map t !! s = Some c) symbols codewords →
  length symbols ≤ fuel →
  decompress_loop fuel t (concat codewords) acc = Returned (acc ++ symbols).
Proof.
  intros Ht Hcs. revert acc fuel.
  induction Hcs as [|s c symbols codewords Hc _ IH]; intros acc fuel Hfuel.
  - destruct fuel; simpl; by rewrite app_nil_r.
  - pose proof (symbol_prefix_map_nonempty _ _ _ Ht Hc) as Hne.
    apply symbol_prefix_map_lookup in Hc as [c' Hc].
    simpl in Hfuel. destruct fuel as [|fuel]; [lia|].
    simpl concat. destruct c as [|b c]; [done|].
    simpl app. unfold decompress_loop; fold decompress_loop.
    change (b :: c ++ concat codewords) with ((b :: c) ++ concat codewords).
    rewrite Hc. simpl. rewrite IH by lia. by rewrite <-app_assoc.
Qed.

(** Under a lone leaf the loop body takes no bit: with bits left it goes
    round for ever. *)
Lemma decompress_loop_leaf c s b bits acc fuel :
  decompress_loop fuel (HuffmanCodeLeaf c s) (b :: bits) acc = OutOfFuel.
Proof.
  revert acc. induction fuel as [|fuel IH]; intros acc; simpl; [done|].
  apply IH.
Qed.

(** Once the loop is over, more fuel changes nothing. *)
Lemma decompress_loop_mono fuel fuel' t bits acc :
  finished (decompress_loop fuel t bits acc) → fuel ≤ fuel' →
  decompress_loop fuel' t bits acc = decompress_loop fuel t bits acc.
Proof.
  revert fuel' bits acc. induction fuel as [|fuel IH]; intros fuel' bits acc.
  - destruct bits; [by destruct fuel'|done].
  - intros Hfin Hle. destruct fuel' as [|fuel']; [lia|].
    destruct bits as [|b bits]; [done|].
    unfold decompress_loop in *; fold decompress_loop in *.
    destruct (walk t (b :: bits)) as [[node bits']| |]; simpl in *; try done.
    destruct (symbol node); simpl in *; try done.
    apply IH; [done|lia].
Qed.

Lemma huffman_decompress_mono fuel fuel' bits :
  finished (huffman_decompress fuel bits) → fuel ≤ fuel' →
  huffman_decompress fuel' bits = huffman_decompress fuel bits.
Proof.
  unfold huffman_decompress.
  destruct (parse bits) as [[t rest]| |]; simpl; try done.
  apply decompress_loop_mono.
Qed.

(** ** The heap keeps its elements *)

Lemma insert_Permutation_cons {A} (l : list A) j c x :
  l !! j = Some c → c :: <[j:=x]> l ≡ₚ x :: l.
Proof.
  revert j. induction l as [|a l IH]; intros [|j]; simpl; try done.
  - intros [= ->]. apply perm_swap.
  - intros H%IH. rewrite (perm_swap a c), H. apply perm_swap.
Qed.

(** Moving the free slot from [i] to [j]: what stood at [j] goes to [i]. *)
Lemma insert_insert_Permutation {A} (l : list A) i j c x :
  i < length l → l !! j = Some c →
  <[j:=x]> (<[i:=c]> l) ≡ₚ <[i:=x]> l.
Proof.
  intros Hi Hj. destruct (decide (i = j)) as [->|Hne].
  { by rewrite list_insert_insert_eq. }
  destruct (lookup_lt_is_Some_2 l i Hi) as [a Ha].
  apply (Permutation_cons_inv (a:=c)), (Permutation_cons_inv (a:=a)).
  rewrite (insert_Permutation_cons (<[i:=c]> l) j c x)
    by by rewrite list_lookup_insert_ne.
  rewrite (perm_swap x a), (insert_Permutation_cons l i a c) by done.
  rewrite (perm_swap c a), (insert_Permutation_cons l i a x) by done.
  apply perm_swap.
Qed.

Lemma parent_lt pos : 0 < pos → Nat.shiftr (pos - 1) 1 < pos.
Proof.
  intros Hpos. rewrite Nat.shiftr_div_pow2. simpl (2 ^ 1).
  pose proof (Nat.Div0.div_le_upper_bound (pos - 1) 2 (pos - 1)). lia.
Qed.

Section heap_elements.
Context {A : Type} (item_lt : A → A → result bool).
(** [P] holds of the items [item_lt] can compare. *)
Context (P : A → Prop).
Hypothesis item_lt_Returned : ∀ a b, P a → P b → ∃ c, item_lt a b = Returned c.

Lemma getitem_Returned (l : list A) i :
  i < length l → Forall P l →
  ∃ x, l !! i = Some x ∧ getitem l i = Returned x ∧ P x.
Proof.
  intros [x Hx]%lookup_lt_is_Some_2 HP. exists x. unfold getitem.
  rewrite Hx. split_and!; try done. by eapply Forall_lookup_1.
Qed.

Lemma setitem_Returned (l : list A) i x :
  i < length l → setitem l i x = Returned (<[i:=x]> l).
Proof. intros Hi. unfold setitem. by rewrite decide_True. Qed.

Lemma siftdown_loop_Returned fuel heap startpos pos newitem :
  pos < length heap → pos ≤ fuel → Forall P heap → P newitem →
  ∃ heap' pos',
    heapq.siftdown_loop item_lt fuel heap startpos pos newitem
    = Returned (heap', pos')
    ∧ pos' < length heap' ∧ Forall P heap'
    ∧ <[pos':=newitem]> heap' ≡ₚ <[pos:=newitem]> heap.
Proof.
  revert heap pos.
  induction fuel as [|fuel IH]; intros heap pos Hpos Hfuel HP Hnew.
  { exists heap, pos. simpl. rewrite decide_False by lia. done. }
  simpl. case_decide as Hstart; [|by exists heap, pos].
  pose proof (parent_lt pos ltac:(lia)) as Hparent.
  change (Nat.shiftr (pos - 1) 1) with (Nat.div2 (pos - 1)) in Hparent.
  destruct (getitem_Returned heap (Nat.div2 (pos - 1)))
    as (parent & Hlook & -> & Hpar); [lia|done|]. simpl.
  destruct (item_lt_Returned newitem parent) as [smaller ->]; [done..|]. simpl.
  destruct smaller; [|by exists heap, pos].
  rewrite setitem_Returned by done. simpl.
  destruct (IH (<[pos:=parent]> heap) (Nat.div2 (pos - 1)))
    as (heap' & pos' & -> & Hpos' & HP' & Hperm).
  { rewrite length_insert. lia. }
  { lia. }
  { by apply Forall_insert. }
  { done. }
  exists heap', pos'. split_and!; try done.
  rewrite Hperm. by apply insert_insert_Permutation.
Qed.

Lemma siftdown_Returned heap startpos pos :
  pos < length heap → Forall P heap →
  ∃ heap', heapq.siftdown item_lt heap startpos pos = Returned heap'
           ∧ heap' ≡ₚ heap.
Proof.
  intros Hpos HP. unfold heapq.siftdown.
  destruct (getitem_Returned heap pos) as (newitem & Hlook & -> & Hnew);
    [done..|]. simpl.
  destruct (siftdown_loop_Returned pos heap startpos pos newitem)
    as (heap' & pos' & -> & Hpos' & HP' & Hperm); [done..|]. simpl.
  rewrite setitem_Returned by done. eexists. split; [done|].
  by rewrite Hperm, list_insert_id.
Qed.

Lemma siftup_loop_Returned fuel heap pos childpos :
  pos < length heap → pos < childpos → length heap ≤ childpos + fuel →
  Forall P heap →
  ∃ heap' pos',
    heapq.siftup_loop item_lt fuel heap (length heap) pos childpos
    = Returned (heap', pos')
    ∧ pos' < length heap' ∧ Forall P heap'
    ∧ ∀ newitem, <[pos':=newitem]> heap' ≡ₚ <[pos:=newitem]> heap.
Proof.
  revert heap pos childpos.
  induction fuel as [|fuel IH]; intros heap pos childpos Hpos Hchild Hfuel HP.
  { exists heap, pos. simpl. rewrite decide_False by lia. done. }
  simpl. case_decide as Hend; [|by exists heap, pos].
  assert (∃ childpos',
    (if decide (childpos + 1 < length heap) then
       child <- getitem heap childpos ;;
       right_ <- getitem heap (childpos + 1) ;;
       smaller <- item_lt child right_ ;;
       Returned (if negb smaller then childpos + 1 else childpos)
     else Returned childpos) = Returned childpos'
    ∧ childpos ≤ childpos' < length heap) as (childpos' & -> & Hchild').
  { case_decide as Hright; [|exists childpos; split; [done|lia]].
    destruct (getitem_Returned heap childpos) as (c & _ & -> & ?); [done..|].
    destruct (getitem_Returned heap (childpos + 1)) as (r & _ & -> & ?);
      [done..|]. simpl.
    destruct (item_lt_Returned c r) as [smaller ->]; [done..|]. simpl.
    destruct smaller; simpl; eexists; (split; [done|lia]). }
  simpl.
  destruct (getitem_Returned heap childpos') as (child & Hlook & -> & Hc);
    [lia|done|]. simpl.
  rewrite setitem_Returned by done. simpl.
  destruct (IH (<[pos:=child]> heap) childpos' (childpos' + (childpos' + 0) + 1))
    as (heap' & pos' & Hrun & Hpos' & HP' & Hperm).
  { rewrite length_insert. lia. }
  { lia. }
  { rewrite length_insert. lia. }
  { by apply Forall_insert. }
  rewrite length_insert in Hrun. rewrite Hrun.
  exists heap', pos'. split_and!; try done.
  intros newitem. rewrite Hperm. by apply insert_insert_Permutation.
Qed.

Lemma siftup_Returned heap pos :
  pos < length heap → Forall P heap →
  ∃ heap', heapq.siftup item_lt heap pos = Returned heap' ∧ heap' ≡ₚ heap.
Proof.
  intros Hpos HP. unfold heapq.siftup.
  destruct (getitem_Returned heap pos) as (newitem & Hlook & -> & Hnew);
    [done..|]. simpl.
  destruct (siftup_loop_Returned (length heap) heap pos (pos + (pos + 0) + 1))
    as (heap' & pos' & -> & Hpos' & HP' & Hperm); [done|lia|lia|done|]. simpl.
  rewrite setitem_Returned by done. simpl.
  assert (<[pos':=newitem]> heap' ≡ₚ heap) as Hperm'.
  { by rewrite Hperm, list_insert_id. }
  destruct (siftdown_Returned (<[pos':=newitem]> heap') pos pos')
    as (heap'' & -> & Hperm'').
  { by rewrite length_insert. }
  { by rewrite Hperm'. }
  exists heap''. split; [done|]. by rewrite Hperm''.
Qed.

Lemma heappush_Returned heap item :
  Forall P heap → P item →
  ∃ heap', heapq.heappush item_lt heap item = Returned heap'
           ∧ heap' ≡ₚ item :: heap.
Proof.
  intros HP Hitem. unfold heapq.heappush.
  destruct (siftdown_Returned (heap ++ [item]) 0 (length (heap ++ [item]) - 1))
    as (heap' & -> & Hperm).
  { rewrite length_app. simpl. lia. }
  { apply Forall_app. auto. }
  exists heap'. split; [done|]. by rewrite Hperm, Permutation_app_comm.
Qed.

Lemma pop_snoc (l : list A) x : pop (l ++ [x]) = Returned (x, l).
Proof.
  unfold pop. rewrite last_snoc. do 2 f_equal.
  apply take_app_length'. rewrite length_app. simpl. lia.
Qed.

Lemma heappop_Returned heap :
  heap ≠ [] → Forall P heap →
  ∃ item heap', heapq.heappop item_lt heap = Returned (item, heap')
                ∧ item :: heap' ≡ₚ heap.
Proof.
  intros Hne HP. destruct heap as [|x heap _] using rev_ind; [done|].
  unfold heapq.heappop. rewrite pop_snoc. simpl.
  apply Forall_app in HP as [HP Hx%Forall_inv].
  destruct heap as [|returnitem heap].
  { by exists x, []. }
  simpl. destruct (siftup_Returned (x :: heap) 0) as (heap' & -> & Hperm).
  { simpl. lia. }
  { apply Forall_inv_tail in HP. by constructor. }
  exists returnitem, heap'. split; [done|].
  rewrite Hperm. simpl. by rewrite (Permutation_app_comm heap [x]).
Qed.

Lemma heapify_loop_Returned x indices :
  Forall (λ i, i < length x) indices → Forall P x →
  ∃ x', for_each (heapq.siftup item_lt) x indices = Returned x' ∧ x' ≡ₚ x.
Proof.
  revert x. induction indices as [|i indices IH]; intros x Hi HP.
  { by exists x. }
  apply Forall_cons in Hi as [Hi His]. simpl.
  destruct (siftup_Returned x i) as (x1 & -> & Hperm1); [done..|]. simpl.
  destruct (IH x1) as (x' & -> & Hperm).
  { by rewrite (Permutation_length Hperm1). }
  { by rewrite Hperm1. }
  exists x'. split; [done|]. by rewrite Hperm.
Qed.

Lemma heapify_Returned x :
  Forall P x → ∃ x', heapq.heapify item_lt x = Returned x' ∧ x' ≡ₚ x.
Proof.
  intros HP. apply heapify_loop_Returned; [|done].
  apply Forall_reverse, Forall_seq. intros i Hi.
  pose proof (Nat.Div0.div_le_upper_bound (length x) 2 (length x)). lia.
Qed.
End heap_elements.

(** ** [Counter] *)

Lemma dict_setitem_keys d key value x :
  x ∈ (dict_setitem d key value).*1 ↔ x = key ∨ x ∈ d.*1.
Proof.
  induction d as [|[k v] d IH]; simpl.
  - rewrite list_elem_of_singleton. set_solver.
  - case_decide; subst; simpl; rewrite !elem_of_cons, ?IH; naive_solver.
Qed.

Lemma dict_setitem_NoDup d key value :
  NoDup d.*1 → NoDup (dict_setitem d key value).*1.
Proof.
  induction d as [|[k v] d IH]; simpl.
  - intros _. apply NoDup_singleton.
  - rewrite NoDup_cons. intros [Hk Hd]. case_decide; subst; simpl.
    + by apply NoDup_cons.
    + apply NoDup_cons. split; [|auto].
      rewrite dict_setitem_keys. naive_solver.
Qed.

Lemma Counter_loop_keys (d : list (N * N)) symbols x :
  x ∈ (foldl (λ self elem, dict_setitem self elem (dict_get self elem 0 + 1)%N)
             d symbols).*1
  ↔ x ∈ d.*1 ∨ x ∈ symbols.
Proof.
  revert d. induction symbols as [|s symbols IH]; intros d; simpl.
  - rewrite elem_of_nil. tauto.
  - rewrite IH, dict_setitem_keys, elem_of_cons. tauto.
Qed.

Lemma Counter_loop_NoDup (d : list (N * N)) symbols :
  NoDup d.*1 →
  NoDup (foldl (λ self elem, dict_setitem self elem (dict_get self elem 0 + 1)%N)
               d symbols).*1.
Proof.
  revert d. induction symbols as [|s symbols IH]; intros d Hd; simpl; [done|].
  by apply IH, dict_setitem_NoDup.
Qed.

(** The keys of the counter are the symbols, each once. *)
Lemma Counter_keys symbols x : x ∈ (Counter symbols).*1 ↔ x ∈ symbols.
Proof.
  unfold Counter. rewrite Counter_loop_keys. simpl. rewrite elem_of_nil. tauto.
Qed.

Lemma Counter_NoDup symbols : NoDup (Counter symbols).*1.
Proof. apply Counter_loop_NoDup. constructor. Qed.

Lemma Counter_loop_replicate n s c :
  foldl (λ self elem, dict_setitem self elem (dict_get self elem 0 + 1)%N)
        [(s, c)] (replicate n s)
  = [(s, (c + N.of_nat n)%N)].
Proof.
  revert c. induction n as [|n IH]; intros c; simpl.
  - by rewrite N.add_0_r.
  - rewrite !decide_True by done. rewrite IH, Nat2N.inj_succ.
    do 2 f_equal. lia.
Qed.

(** One distinct symbol: one entry, counting its occurrences. *)
Lemma Counter_replicate n s :
  Counter (replicate (S n) s) = [(s, N.of_nat (S n))].
Proof.
  unfold Counter. simpl replicate. simpl foldl.
  rewrite Counter_loop_replicate, Nat2N.inj_succ. do 2 f_equal. lia.
Qed.

(** ** [for_symbols] *)

Lemma lt_comparable a b :
  comparable a → comparable b → ∃ c, __lt__ a b = Returned c.
Proof. unfold __lt__. intros [x ->] [y ->]. eauto. Qed.

Lemma HuffmanCodeNonLeaf_comparable l r :
  comparable l → comparable r → comparable (HuffmanCodeNonLeaf l r).
Proof. unfold HuffmanCodeNonLeaf. intros [x ->] [y ->]. by eexists. Qed.

Lemma leaves_HuffmanCodeNonLeaf l r :
  leaves (HuffmanCodeNonLeaf l r) = leaves l ++ leaves r.
Proof. unfold HuffmanCodeNonLeaf. by destruct (count l), (count r). Qed.

Lemma is_leaf_HuffmanCodeNonLeaf l r : ¬ is_leaf (HuffmanCodeNonLeaf l r).
Proof.
  unfold HuffmanCodeNonLeaf. destruct (count l), (count r); simpl; tauto.
Qed.

Lemma leaves_nonempty t : leaves t ≠ [].
Proof.
  induction t as [|c l IHl r IHr]; simpl; [done|].
  by intros [? _]%app_eq_nil.
Qed.

(** The merge loop ends with one tree that carries the leaves of all the
    trees it started from. *)
Lemma for_symbols_loop_Returned fuel trees :
  trees ≠ [] → length trees ≤ S fuel → Forall comparable trees →
  ∃ t, for_symbols_loop fuel trees = Returned [t]
       ∧ leaves t ≡ₚ trees ≫= leaves.
Proof.
  revert trees. induction fuel as [|fuel IH]; intros trees Hne Hfuel Hcmp.
  { destruct trees as [|t [|??]]; simpl in *; [done| |lia].
    exists t. by rewrite app_nil_r. }
  simpl. case_decide as Hlen.
  2:{ destruct trees as [|t [|??]]; simpl in *; [done| |lia].
      exists t. by rewrite app_nil_r. }
  destruct (heappop_Returned __lt__ comparable lt_comparable trees)
    as (l & trees1 & -> & Hperm1); [done..|]. simpl.
  assert (Forall comparable (l :: trees1)) as [Hl Hcmp1]%Forall_cons
    by by rewrite Hperm1.
  pose proof (Permutation_length Hperm1) as Hlen1. simpl in Hlen1.
  destruct (heappop_Returned __lt__ comparable lt_comparable trees1)
    as (r & trees2 & -> & Hperm2); [by destruct trees1; simpl in *; try lia|done|].
  simpl.
  assert (Forall comparable (r :: trees2)) as [Hr Hcmp2]%Forall_cons
    by by rewrite Hperm2.
  pose proof (Permutation_length Hperm2) as Hlen2. simpl in Hlen2.
  destruct (heappush_Returned __lt__ comparable lt_comparable trees2
              (HuffmanCodeNonLeaf l r))
    as (trees3 & -> & Hperm3); [done|by apply HuffmanCodeNonLeaf_comparable|].
  simpl.
  pose proof (Permutation_length Hperm3) as Hlen3. simpl in Hlen3.
  destruct (IH trees3) as (t & -> & Ht).
  { by destruct trees3. }
  { lia. }
  { rewrite Hperm3. constructor; [|done].
    by apply HuffmanCodeNonLeaf_comparable. }
  exists t. split; [done|].
  rewrite Ht, Hperm3, <-Hperm1, <-Hperm2, !bind_cons.
  by rewrite leaves_HuffmanCodeNonLeaf, <-app_assoc.
Qed.

Lemma leaves_initial (counts : list (N * N)) :
  map (λ '(symbol, count), HuffmanCodeLeaf (Some count) symbol) counts
    ≫= leaves
  = counts.*1.
Proof.
  induction counts as [|[s c] counts IH]; [done|].
  simpl map. rewrite bind_cons, IH. done.
Qed.

Lemma initial_comparable (counts : list (N * N)) :
  Forall comparable
    (map (λ '(symbol, count), HuffmanCodeLeaf (Some count) symbol) counts).
Proof.
  induction counts as [|[s c] counts IH]; constructor; [by eexists|done].
Qed.

(** [for_symbols] returns a tree for every non-empty sequence, and the
    leaves of the tree are the distinct symbols of the sequence. *)
Lemma for_symbols_Returned symbols :
  symbols ≠ [] →
  ∃ t, for_symbols symbols = Returned t
       ∧ leaves t ≡ₚ (Counter symbols).*1.
Proof.
  intros Hne. unfold for_symbols.
  destruct (heapify_Returned __lt__ comparable lt_comparable _
              (initial_comparable (Counter symbols)))
    as (trees & -> & Hperm). simpl.
  destruct (for_symbols_loop_Returned (length trees) trees)
    as (t & -> & Ht).
  { intros ->. apply Permutation_nil_l in Hperm.
    apply (f_equal length) in Hperm. rewrite length_map in Hperm.
    destruct symbols as [|s symbols]; [done|].
    assert (s ∈ (Counter (s :: symbols)).*1) as Hs
      by (apply Counter_keys; left).
    destruct (Counter (s :: symbols)); [by apply elem_of_nil in Hs|done]. }
  { lia. }
  { rewrite Hperm. apply initial_comparable. }
  exists t. split; [done|]. by rewrite Ht, Hperm, leaves_initial.
Qed.

Lemma for_symbols_leaves symbols t s :
  for_symbols symbols = Returned t → symbols ≠ [] →
  s ∈ leaves t ↔ s ∈ symbols.
Proof.
  intros Ht Hne. destruct (for_symbols_Returned symbols Hne) as (t' & Ht' & Hl).
  assert (t' = t) as -> by congruence. by rewrite Hl, Counter_keys.
Qed.

Lemma for_symbols_NoDup symbols t :
  for_symbols symbols = Returned t → symbols ≠ [] → NoDup (leaves t).
Proof.
  intros Ht Hne. destruct (for_symbols_Returned symbols Hne) as (t' & Ht' & Hl).
  assert (t' = t) as -> by congruence. rewrite Hl. apply Counter_NoDup.
Qed.

(** One distinct symbol: the tree is a lone leaf, with no merge. *)
Lemma for_symbols_replicate n s :
  for_symbols (replicate (S n) s)
  = Returned (HuffmanCodeLeaf (Some (N.of_nat (S n))) s).
Proof. unfold for_symbols. by rewrite Counter_replicate. Qed.

(** C7. [for_symbols] applied to the empty sequence raises (the list of
    trees is empty and [trees[0]] is out of range, which in Python is an
    [IndexError]); it returns no tree. *)
Theorem for_symbols_empty : for_symbols [] = Raised IndexError.
Proof. reflexivity. Qed.

(** C9. For every non-empty symbol sequence [for_symbols] returns a tree,
    and in the codeword map of that tree no symbol's codeword is a prefix of
    another symbol's codeword. *)
Theorem for_symbols_prefix_free (symbols : list N) :
  symbols ≠ [] →
  ∃ t, for_symbols symbols = Returned t ∧ prefix_free (symbol_prefix_map t).
Proof.
  intros Hne. destruct (for_symbols_Returned symbols Hne) as (t & Ht & _).
  exists t. split; [done|]. apply symbol_prefix_map_prefix_free.
Qed.

Lemma for_symbols_prefix_free_witness :
  ∃ t, for_symbols [3; 1; 3; 0; 1; 3]%N = Returned t
       ∧ prefix_free (symbol_prefix_map t).
Proof. apply for_symbols_prefix_free. done. Defined.

(** ** [huffman_compress] and [huffman_decompress] *)

(** [huffman_compress] returns for every non-empty sequence: the serialized
    tree, then the codeword of every symbol in order. *)
Lemma huffman_compress_Returned symbols :
  symbols ≠ [] →
  ∃ t codewords,
    for_symbols symbols = Returned t
    ∧ Forall2 (λ s c, symbol_prefix_map t !! s = Some c) symbols codewords
    ∧ huffman_compress symbols = Returned (serialize t ++ concat codewords).
Proof.
  intros Hne. destruct (for_symbols_Returned symbols Hne) as (t & Ht & Hl).
  destruct (compress_loop_Returned (symbol_prefix_map t) symbols (serialize t))
    as (codewords & Hcs & Hrun).
  { intros s Hs. apply symbol_prefix_map_dom. by rewrite Hl, Counter_keys. }
  exists t, codewords. split_and!; try done.
  unfold huffman_compress. rewrite Ht. simpl. apply Hrun.
Qed.

Lemma huffman_decompress_serialize fuel t payload :
  huffman_decompress fuel (serialize t ++ payload)
  = decompress_loop fuel (unweighted t) payload [].
Proof. unfold huffman_decompress. by rewrite parse_serialize_app. Qed.

(** Two distinct symbols make the root an inner node. *)
Lemma for_symbols_inner symbols t a b :
  for_symbols symbols = Returned t → a ∈ symbols → b ∈ symbols → a ≠ b →
  ¬ is_leaf t.
Proof.
  intros Ht Ha Hb Hab Hleaf.
  assert (symbols ≠ []) as Hne by (intros ->; by apply elem_of_nil in Ha).
  apply (for_symbols_leaves _ _ a Ht Hne) in Ha.
  apply (for_symbols_leaves _ _ b Ht Hne) in Hb.
  destruct t; simpl in *; [|done].
  apply list_elem_of_singleton in Ha, Hb. congruence.
Qed.

(** One turn of the symbol loop per symbol is enough to decode what
    [huffman_compress] wrote. *)
Lemma decompress_compress_two_symbols symbols a b :
  a ∈ symbols → b ∈ symbols → a ≠ b →
  ∃ bits, huffman_compress symbols = Returned bits
          ∧ ∀ fuel, length symbols ≤ fuel →
                    huffman_decompress fuel bits = Returned symbols.
Proof.
  intros Ha Hb Hab.
  assert (symbols ≠ []) as Hne by (intros ->; by apply elem_of_nil in Ha).
  destruct (huffman_compress_Returned symbols Hne) as (t & cs & Ht & Hcs & Hrun).
  exists (serialize t ++ concat cs). split; [done|].
  intros fuel Hfuel.
  rewrite huffman_decompress_serialize.
  apply (decompress_loop_codewords _ symbols cs []); [| |done].
  - rewrite is_leaf_unweighted. by apply (for_symbols_inner symbols _ a b).
  - by rewrite symbol_prefix_map_unweighted.
Qed.

(** X26. With two distinct symbols in the sequence the codec gives the
    sequence back, and the symbol loop of [huffman_decompress] needs no more
    turns for it than the sequence has symbols. *)
Theorem huffman_roundtrip (symbols : list N) (a b : N) :
  a ∈ symbols → b ∈ symbols → a ≠ b →
  ∃ bits, huffman_compress symbols = Returned bits
          ∧ ∀ fuel, length symbols ≤ fuel →
                    huffman_decompress fuel bits = Returned symbols.
Proof. apply decompress_compress_two_symbols. Qed.

Lemma huffman_roundtrip_witness :
  ∃ bits, huffman_compress [1; 2; 1; 1; 0]%N = Returned bits
          ∧ ∀ fuel, 5 ≤ fuel →
                    huffman_decompress fuel bits = Returned [1; 2; 1; 1; 0]%N.
Proof.
  apply (huffman_roundtrip [1; 2; 1; 1; 0]%N 1%N 2%N); [| |done].
  - apply list_elem_of_here.
  - apply list_elem_of_further, list_elem_of_here.
Defined.

(** C1. When every symbol of the sequence is the same, the tree is a lone
    leaf, every codeword is empty, the output of [huffman_compress] is the
    serialized leaf alone, and [huffman_decompress] returns the empty
    sequence for it, not the [S n] symbols that went in. *)
Theorem huffman_roundtrip_one_symbol (n : nat) (s : N) :
  ∃ bits, huffman_compress (replicate (S n) s) = Returned bits
          ∧ returns (λ fuel, huffman_decompress fuel bits) []
          ∧ ¬ returns (λ fuel, huffman_decompress fuel bits) (replicate (S n) s).
Proof.
  destruct (huffman_compress_Returned (replicate (S n) s)) as (t & cs & Ht & Hcs & Hrun);
    [done|].
  rewrite for_symbols_replicate in Ht. injection Ht as <-.
  rewrite (codewords_leaf _ _ _ _ Hcs), app_nil_r in Hrun. eexists. split; [done|].
  assert (returns (λ fuel,
            huffman_decompress fuel
              (serialize (HuffmanCodeLeaf (Some (N.of_nat (S n))) s))) []) as H.
  { exists 0. intros fuel _.
    rewrite <-(app_nil_r (serialize _)), huffman_decompress_serialize.
    by destruct fuel. }
  split; [done|]. intros H'. by pose proof (returns_inj _ _ _ H H').
Qed.

(** C2. [huffman_compress [5; 5; 5; 5]]: the tree is one leaf, the codeword
    of 5 is empty and the output is the serialized tree; but
    [huffman_decompress] returns the empty sequence for that output. *)
Theorem huffman_compress_5555 :
  for_symbols [5; 5; 5; 5]%N = Returned (HuffmanCodeLeaf (Some 4%N) 5%N)
  ∧ symbol_prefix_map (HuffmanCodeLeaf (Some 4%N) 5%N) = {[ 5%N := [] ]}
  ∧ huffman_compress [5; 5; 5; 5]%N
    = Returned (serialize (HuffmanCodeLeaf (Some 4%N) 5%N))
  ∧ serialize (HuffmanCodeLeaf (Some 4%N) 5%N)
    = [true; false; false; false; true; true; false; true]
  ∧ ∀ fuel,
      huffman_decompress fuel (serialize (HuffmanCodeLeaf (Some 4%N) 5%N))
      = Returned [].
Proof.
  split_and!; try reflexivity. intros fuel. by destruct fuel.
Qed.

(** C10. When [parse] reads a lone leaf off the front of the bits and at
    least one bit is left, [huffman_decompress] does not come to an end:
    whatever the fuel, the symbol loop is still running when it is cut. *)
Theorem huffman_decompress_leaf_diverges
    (bits rest : list bool) (c : option N) (s : N) (b : bool) :
  parse bits = Returned (HuffmanCodeLeaf c s, b :: rest) →
  diverges (λ fuel, huffman_decompress fuel bits).
Proof.
  intros Hparse fuel. unfold huffman_decompress. rewrite Hparse. simpl.
  apply decompress_loop_leaf.
Qed.

Lemma huffman_decompress_leaf_diverges_witness :
  diverges (λ fuel, huffman_decompress fuel [true; true; false]).
Proof.
  apply (huffman_decompress_leaf_diverges _ [] None 0%N false). reflexivity.
Defined.

(** ** Bit lists cut short *)

Lemma proper_prefix_nil {A} (l : list A) : l ≠ [] → proper_prefix [] l.
Proof. intros Hl. by exists l. Qed.

Lemma proper_prefix_cons {A} (x : A) p l :
  proper_prefix p l → proper_prefix (x :: p) (x :: l).
Proof. intros (k & Hk & ->). by exists k. Qed.

Lemma proper_prefix_take {A} (l : list A) k :
  0 < k → l ≠ [] → proper_prefix (take (length l - k) l) l.
Proof.
  intros Hk Hl. exists (drop (length l - k) l). split.
  - intros H%(f_equal length). rewrite length_drop in H.
    destruct l; simpl in *; [done|lia].
  - by rewrite take_drop.
Qed.

(** A descent that is cut before it reaches the leaf pops from an empty
    list. *)
Lemma walk_cut t q k node :
  k ≠ [] → walk t (q ++ k) = Returned (node, []) →
  walk t q = Raised IndexError.
Proof.
  intros Hk. revert q. induction t as [c s|c l IHl r IHr]; intros q; simpl.
  - intros [= _ H]. by apply app_eq_nil in H as [_ ?].
  - destruct q as [|[] q]; simpl; auto.
Qed.

(** The symbol loop on the codewords of [symbols] cut short: it raises, or
    it returns the symbols it had decoded so far. *)
Lemma decompress_loop_cut t symbols codewords q acc fuel :
  ¬ is_leaf t →
  Forall2 (λ s c, symbol_prefix_map t !! s = Some c) symbols codewords →
  proper_prefix q (concat codewords) →
  length symbols ≤ fuel →
  decompress_loop fuel t q acc = Raised IndexError
  ∨ ∃ p, decompress_loop fuel t q acc = Returned (acc ++ p)
         ∧ proper_prefix p symbols.
Proof.
  intros Ht Hcs. revert q acc fuel.
  induction Hcs as [|s c symbols codewords Hc _ IH]; intros q acc fuel.
  { intros (k & Hk & H). symmetry in H. by apply app_eq_nil in H as [_ ?]. }
  intros (k & Hk & Hcut) Hfuel. simpl in Hcut, Hfuel.
  destruct fuel as [|fuel]; [lia|].
  pose proof (symbol_prefix_map_nonempty _ _ _ Ht Hc) as Hne.
  apply symbol_prefix_map_lookup in Hc as [c' Hc].
  assert ((∃ j, j ≠ [] ∧ c = q ++ j)
          ∨ ∃ j, q = c ++ j ∧ concat codewords = j ++ k) as [(j & Hj & ->)|(j & -> & HR)].
  { apply app_eq_inv in Hcut as [(j & -> & ->)|(j & -> & ->)]; [|by eauto].
    destruct j as [|b j]; [|left; by exists (b :: j)].
    right. exists []. by rewrite !app_nil_r. }
  - destruct q as [|b q].
    + right. exists []. rewrite app_nil_r. split; [done|].
      by apply proper_prefix_nil.
    + left. unfold decompress_loop; fold decompress_loop.
      rewrite (walk_cut t (b :: q) j (HuffmanCodeLeaf c' s)); [done..|].
      specialize (Hc []). by rewrite app_nil_r in Hc.
  - destruct c as [|b c]; [done|].
    simpl app. unfold decompress_loop; fold decompress_loop.
    change (b :: c ++ j) with ((b :: c) ++ j). rewrite Hc. simpl.
    destruct (IH j (acc ++ [s]) fuel) as [->|(p & -> & Hp)];
      [by exists k|lia|by left|].
    right. exists (s :: p). rewrite <-app_assoc. split; [done|].
    by apply proper_prefix_cons.
Qed.

Lemma parse_leaf_len_zeros_only bits n :
  Forall (eq false) bits → parse_leaf_len bits n = Raised IndexError.
Proof.
  intros H. revert n. induction H as [|b bits <- _ IH]; intros n; simpl; auto.
Qed.

(** A leaf cut short: the length prefix is cut and [parse_leaf] raises, or
    the symbol bits are cut and it takes all there is. *)
Lemma parse_leaf_cut symbol_bits q :
  proper_prefix q (replicate (length symbol_bits) false ++ true :: symbol_bits) →
  parse_leaf q = Raised IndexError ∨ ∃ t, parse_leaf q = Returned (t, []).
Proof.
  intros (k & Hk & Hcut). symmetry in Hcut. unfold parse_leaf.
  apply app_eq_inv in Hcut as [(j & -> & Hj)|(j & Hj & ->)].
  - destruct j as [|b j].
    + left. rewrite app_nil_r, parse_leaf_len_zeros_only; [done|].
      apply Forall_replicate_eq.
    + simpl in Hj. injection Hj as <- Hj.
      right. rewrite parse_leaf_len_zeros. simpl. eexists. do 2 f_equal.
      apply drop_ge. rewrite Hj, length_app. lia.
  - left. rewrite parse_leaf_len_zeros_only; [done|].
    assert (Forall (eq false) (q ++ j)) as [? _]%Forall_app; [|done].
    rewrite <-Hj. apply Forall_replicate_eq.
Qed.

(** A serialized tree cut short: [parse] raises, or it takes all the bits
    there are. *)
Lemma parse_fuel_cut t q fuel :
  proper_prefix q (serialize t) → length q < fuel →
  parse_fuel fuel q = Raised IndexError
  ∨ ∃ t', parse_fuel fuel q = Returned (t', []).
Proof.
  revert q fuel. induction t as [c s|c l IHl r IHr]; intros q fuel Hcut Hfuel.
  - rewrite serialize_leaf in Hcut. destruct fuel as [|fuel]; [lia|].
    destruct Hcut as (k & Hk & Hcut).
    destruct q as [|b q]; [by left|].
    injection Hcut as <- Hcut. simpl.
    apply (parse_leaf_cut (int_to_bit_list s)). by exists k.
  - destruct fuel as [|fuel]; [lia|].
    destruct Hcut as (k & Hk & Hcut). simpl in Hcut.
    destruct q as [|b q]; [by left|].
    injection Hcut as <- Hcut. simpl in *.
    assert ((∃ j, j ≠ [] ∧ serialize l = q ++ j)
            ∨ ∃ j, q = serialize l ++ j ∧ serialize r = j ++ k)
      as [(j & Hj & Hl)|(j & -> & Hr)].
    { apply app_eq_inv in Hcut as [(j & Hl & ->)|(j & -> & Hr)]; [|by eauto].
      destruct j as [|b j]; [|left; by exists (b :: j)].
      right. exists []. by rewrite Hl, !app_nil_r. }
    + left. destruct (IHl q fuel) as [->|(t' & ->)]; [by exists j|lia|done|].
      simpl. destruct fuel; [lia|done].
    + rewrite length_app in Hfuel. pose proof (depth_lt_serialize l).
      rewrite parse_fuel_serialize by lia. simpl.
      destruct (IHr j fuel) as [->|(t' & ->)]; [by exists k|lia|by left|].
      right. by eexists.
Qed.

Lemma parse_cut t q :
  proper_prefix q (serialize t) →
  parse q = Raised IndexError ∨ ∃ t', parse q = Returned (t', []).
Proof. intros H. apply (parse_fuel_cut t); [done|lia]. Qed.

(** A compressed sequence cut short. *)
Lemma huffman_decompress_cut symbols t codewords q :
  symbols ≠ [] →
  Forall2 (λ s c, symbol_prefix_map t !! s = Some c) symbols codewords →
  proper_prefix q (serialize t ++ concat codewords) →
  raises (λ fuel, huffman_decompress fuel q) IndexError
  ∨ ∃ p, returns (λ fuel, huffman_decompress fuel q) p
         ∧ proper_prefix p symbols.
Proof.
  intros Hne Hcs (k & Hk & Hcut).
  assert ((∃ j, j ≠ [] ∧ serialize t = q ++ j)
          ∨ ∃ j, q = serialize t ++ j ∧ concat codewords = j ++ k)
    as [(j & Hj & Ht)|(j & -> & Hpay)].
  { apply app_eq_inv in Hcut as [(j & Ht & ->)|(j & -> & Hpay)]; [|by eauto].
    destruct j as [|b j]; [|left; by exists (b :: j)].
    right. exists []. by rewrite Ht, !app_nil_r. }
  - destruct (parse_cut t q) as [Hq|(t' & Hq)]; [by exists j|..].
    + left. exists 0. intros fuel _. unfold huffman_decompress. by rewrite Hq.
    + right. exists []. split; [|by apply proper_prefix_nil].
      exists 0. intros fuel _. unfold huffman_decompress. rewrite Hq. simpl.
      by destruct fuel.
  - assert (is_leaf t ∨ ¬ is_leaf t) as [Hleaf|Hleaf]
      by (destruct t; simpl; tauto).
    { destruct t as [c s|]; [|done]. exfalso. apply Hk.
      rewrite (codewords_leaf _ _ _ _ Hcs) in Hpay. symmetry in Hpay.
      by apply app_eq_nil in Hpay as [_ ?]. }
    assert (∀ fuel, length symbols ≤ fuel →
              decompress_loop fuel (unweighted t) j [] = Raised IndexError
              ∨ ∃ p, decompress_loop fuel (unweighted t) j [] = Returned p
                     ∧ proper_prefix p symbols) as Hloop.
    { intros fuel Hfuel.
      apply (decompress_loop_cut _ symbols codewords j []); [| | |done].
      - by rewrite is_leaf_unweighted.
      - by rewrite symbol_prefix_map_unweighted.
      - by exists k. }
    destruct (Hloop (length symbols) (le_n _)) as [Hr|(p & Hr & Hp)].
    + left. exists (length symbols). intros fuel Hfuel.
      rewrite huffman_decompress_serialize.
      rewrite (decompress_loop_mono (length symbols)); [done| |done].
      by rewrite Hr.
    + right. exists p. split; [|done].
      exists (length symbols). intros fuel Hfuel.
      rewrite huffman_decompress_serialize.
      rewrite (decompress_loop_mono (length symbols)); [done| |done].
      by rewrite Hr.
Qed.

(** C4, as the code has it. For every non-empty symbol sequence,
    [huffman_decompress] applied to the output of [huffman_compress] less
    its last [k] bits, [k] non-zero, either raises [IndexError] (the pop from
    an empty list) or returns a proper prefix of the sequence: it never
    returns the whole sequence, nor a sequence that is not one of its
    prefixes, but it does return short ones. *)
Theorem huffman_decompress_truncated (symbols : list N) :
  symbols ≠ [] →
  ∃ bits,
    huffman_compress symbols = Returned bits
    ∧ ∀ k, 0 < k →
        let truncated := take (length bits - k) bits in
        raises (λ fuel, huffman_decompress fuel truncated) IndexError
        ∨ ∃ p, returns (λ fuel, huffman_decompress fuel truncated) p
               ∧ proper_prefix p symbols.
Proof.
  intros Hne.
  destruct (huffman_compress_Returned symbols Hne) as (t & cs & Ht & Hcs & Hrun).
  eexists. split; [done|]. intros k Hk truncated.
  apply (huffman_decompress_cut symbols t cs); [done..|].
  apply proper_prefix_take; [done|].
  pose proof (depth_lt_serialize t). destruct (serialize t); simpl in *; [lia|done].
Qed.

Lemma huffman_decompress_truncated_witness :
  ∃ bits,
    huffman_compress [1; 2; 1]%N = Returned bits
    ∧ ∀ k, 0 < k →
        let truncated := take (length bits - k) bits in
        raises (λ fuel, huffman_decompress fuel truncated) IndexError
        ∨ ∃ p, returns (λ fuel, huffman_decompress fuel truncated) p
               ∧ proper_prefix p [1; 2; 1]%N.
Proof. apply (huffman_decompress_truncated [1; 2; 1]%N). done. Defined.

(** X27. Every cut that falls between two codewords goes unnoticed: with two
    distinct symbols in the sequence, each of its proper prefixes is what
    [huffman_decompress] returns for some truncation of the output. *)
Theorem huffman_decompress_boundary_cut (symbols : list N) (a b : N) (j : nat) :
  a ∈ symbols → b ∈ symbols → a ≠ b → j < length symbols →
  ∃ bits k,
    huffman_compress symbols = Returned bits
    ∧ 0 < k ≤ length bits
    ∧ returns (λ fuel, huffman_decompress fuel (take (length bits - k) bits))
              (take j symbols).
Proof.
  intros Ha Hb Hab Hj.
  assert (symbols ≠ []) as Hne by (intros ->; by apply elem_of_nil in Ha).
  destruct (huffman_compress_Returned symbols Hne) as (t & cs & Ht & Hcs & Hrun).
  pose proof (for_symbols_inner symbols t a b Ht Ha Hb Hab) as Hinner.
  pose proof (Forall2_length _ _ _ Hcs) as Hlen.
  assert (concat cs = concat (take j cs) ++ concat (drop j cs)) as Hsplit
    by by rewrite <-concat_app, take_drop.
  assert (0 < length (concat (drop j cs))) as Hk.
  { pose proof (Forall2_drop _ _ _ j Hcs) as Hdrop.
    destruct (drop j cs) as [|c rest] eqn:Ecs.
    { apply (f_equal length) in Ecs. rewrite length_drop in Ecs.
      simpl in Ecs. lia. }
    apply Forall2_cons_inv_r in Hdrop as (s & ? & Hc & _ & _).
    pose proof (symbol_prefix_map_nonempty _ _ _ Hinner Hc).
    simpl. rewrite length_app. destruct c; simpl; [done|lia]. }
  exists (serialize t ++ concat cs), (length (concat (drop j cs))).
  split; [done|]. split.
  { rewrite length_app, Hsplit, length_app. lia. }
  assert (take (length (serialize t ++ concat cs) - length (concat (drop j cs)))
               (serialize t ++ concat cs)
          = serialize t ++ concat (take j cs)) as ->.
  { rewrite Hsplit at 2. rewrite app_assoc. apply take_app_length'.
    rewrite Hsplit, !length_app. lia. }
  exists j. intros fuel Hfuel. rewrite huffman_decompress_serialize.
  apply (decompress_loop_codewords _ (take j symbols) (take j cs) []).
  - by rewrite is_leaf_unweighted.
  - rewrite symbol_prefix_map_unweighted. by apply Forall2_take.
  - rewrite length_take. lia.
Qed.

Lemma huffman_decompress_boundary_cut_witness :
  ∃ bits k,
    huffman_compress [1; 2; 1; 1; 0]%N = Returned bits
    ∧ 0 < k ≤ length bits
    ∧ returns (λ fuel, huffman_decompress fuel (take (length bits - k) bits))
              (take 3 [1; 2; 1; 1; 0]%N).
Proof.
  apply (huffman_decompress_boundary_cut [1; 2; 1; 1; 0]%N 1%N 2%N 3);
    [| |done|simpl; lia].
  - apply list_elem_of_here.
  - apply list_elem_of_further, list_elem_of_here.
Defined.

(** C4 as stated fails: the output of [huffman_compress [1; 2]] less its
    last bit decompresses to [[1]], and no error is raised. *)
Lemma truncation_goes_unnoticed :
  huffman_compress [1; 2]%N
  = Returned [false; true; false; false; true; false; true;
              true; false; true; true; true; false]
  ∧ returns (λ fuel,
       huffman_decompress fuel
         [false; true; false; false; true; false; true;
          true; false; true; true; true]) [1%N]
  ∧ ¬ raises (λ fuel,
        huffman_decompress fuel
          [false; true; false; false; true; false; true;
           true; false; true; true; true]) IndexError.
Proof.
  split; [reflexivity|].
  assert (returns (λ fuel,
            huffman_decompress fuel
              [false; true; false; false; true; false; true;
               true; false; true; true; true]) [1%N]) as H.
  { exists 1. intros fuel Hfuel.
    rewrite (huffman_decompress_mono 1); [reflexivity|exact I|done]. }
  split; [exact H|]. by apply returns_not_raises with (v := [1%N]).
Qed.

(** ** Liveness masks *)

Local Open Scope string_scope.

Lemma append_empty_r (s : string) : s ++ "" = s.
Proof.
  induction s as [|a s IH]; [done|].
  change (String a s ++ "") with (String a (s ++ "")). by rewrite IH.
Qed.

Lemma concat_empty_cons (x : string) (l : list string) :
  String.concat "" (x :: l) = x ++ String.concat "" l.
Proof. destruct l; simpl; [by rewrite append_empty_r|done]. Qed.

Lemma concat_sep_cons sep (x y : string) (l : list string) :
  String.concat sep (x :: y :: l) = x ++ sep ++ String.concat sep (y :: l).
Proof. reflexivity. Qed.

(** [repr] writes one character per element. *)
Lemma repr_nil : repr {| mask := [] |} = "".
Proof. reflexivity. Qed.

Lemma repr_cons bit l :
  repr {| mask := bit :: l |} = String (bit_char bit) (repr {| mask := l |}).
Proof.
  unfold repr. simpl mask. simpl map. rewrite concat_empty_cons.
  by destruct bit.
Qed.

Lemma repr_chars l :
  list_ascii_of_string (repr {| mask := l |}) = map bit_char l.
Proof.
  induction l as [|bit l IH]; [done|].
  rewrite repr_cons. simpl. by rewrite IH.
Qed.

Lemma split_nonempty sep s : split sep s ≠ [].
Proof.
  destruct s as [|c s]; simpl; [done|].
  case_decide; [done|]. by destruct (split sep s).
Qed.

(** Joining the zero runs with ["1"] undoes the split at ["1"]. *)
Lemma join_split l :
  String.concat "1"
    (map (λ zero_run, string_mul "0" (String.length zero_run))
         (split "1" (repr {| mask := l |})))
  = repr {| mask := l |}.
Proof.
  induction l as [|bit l IH]; [done|].
  rewrite repr_cons. pose proof (split_nonempty "1" (repr {| mask := l |})) as Hne.
  destruct bit; simpl split.
  - destruct (split "1" (repr {| mask := l |})) as [|piece pieces]; [done|].
    simpl map in *. rewrite concat_sep_cons, IH. done.
  - destruct (split "1" (repr {| mask := l |})) as [|piece pieces]; [done|].
    simpl map in *. destruct pieces as [|piece' pieces].
    + simpl in *. by rewrite IH.
    + simpl map in *. rewrite concat_sep_cons in *. by rewrite <-IH.
Qed.

Lemma from_bit_string_loop_repr decimal l :
  comprehension (λ bit, n <- int decimal bit ;; Returned (negb (n =? 0)%N))
                (map N_of_ascii (map bit_char l))
  = Returned l.
Proof.
  induction l as [|bit l IH]; [done|].
  simpl map. simpl comprehension. rewrite IH. by destruct bit.
Qed.

(** [from_bit_string] reads back what [repr] wrote. *)
Lemma from_bit_string_repr decimal self :
  from_bit_string decimal (code_points (repr self)) = Returned self.
Proof.
  destruct self as [l]. unfold from_bit_string, code_points.
  by rewrite repr_chars, from_bit_string_loop_repr.
Qed.

Lemma from_rle_inverts_to_rle decimal self :
  from_rle decimal (to_rle self) = Returned self.
Proof.
  unfold from_rle, to_rle. rewrite map_map.
  erewrite map_ext; [|intros zero_run; by rewrite Nat2N.id].
  destruct self as [l]. rewrite join_split. apply from_bit_string_repr.
Qed.

(** There is one run more than there are live bits. *)
Lemma length_split_repr l :
  length (split "1" (repr {| mask := l |}))
  = S (length (filter (λ bit, bit = true) l)).
Proof.
  induction l as [|bit l IH]; [done|].
  rewrite repr_cons. pose proof (split_nonempty "1" (repr {| mask := l |})).
  destruct bit; simpl split.
  - rewrite filter_cons_True by done. simpl. by rewrite IH.
  - rewrite filter_cons_False by done. rewrite <-IH.
    by destruct (split "1" (repr {| mask := l |})).
Qed.

Lemma length_to_rle self :
  length (to_rle self) = S (length (filter (λ bit, bit = true) (mask self))).
Proof.
  destruct self as [l]. unfold to_rle. rewrite length_map.
  apply length_split_repr.
Qed.

(** C5. For every mask, of any length and with any content (the empty
    mask, the all-false and the all-true masks are among them),
    [from_rle (to_rle m)] returns [m]. *)
Theorem from_rle_to_rle (decimal : N → option N) (m : LivenessMask) :
  from_rle decimal (to_rle m) = Returned m
  ∧ from_rle decimal (to_rle {| mask := [] |}) = Returned {| mask := [] |}
  ∧ (∀ n, from_rle decimal (to_rle {| mask := replicate n false |})
          = Returned {| mask := replicate n false |})
  ∧ (∀ n, from_rle decimal (to_rle {| mask := replicate n true |})
          = Returned {| mask := replicate n true |}).
Proof. split_and!; intros; apply from_rle_inverts_to_rle. Qed.

(** X28. A mask whose run lengths are not all the same comes back from
    [decompress (compress m)]. *)
Theorem compress_decompress (decimal : N → option N) (m : LivenessMask)
    (a b : N) :
  a ∈ to_rle m → b ∈ to_rle m → a ≠ b →
  ∃ bits, compress m = Returned bits
          ∧ returns (λ fuel, decompress decimal fuel bits) m.
Proof.
  intros Ha Hb Hab.
  destruct (decompress_compress_two_symbols (to_rle m) a b Ha Hb Hab)
    as (bits & Hc & Hn).
  exists bits. split; [done|]. exists (length (to_rle m)). intros fuel Hfuel.
  unfold decompress. rewrite (Hn fuel Hfuel). simpl.
  apply from_rle_inverts_to_rle.
Qed.

Lemma compress_decompress_witness :
  ∃ bits,
    compress {| mask := [false; true; false; false; true] |} = Returned bits
    ∧ returns (λ fuel, decompress arabic_indic_digits fuel bits)
              {| mask := [false; true; false; false; true] |}.
Proof.
  apply (compress_decompress arabic_indic_digits _ 1%N 2%N); [| |done].
  - apply list_elem_of_here.
  - apply list_elem_of_further, list_elem_of_here.
Defined.

(** The check the script prints as its serialization test, on the mask of
    one live bit: the run lengths are [[0; 0]], the tree is a lone leaf, and
    the mask that comes back is empty. *)
Lemma serialization_test_one_live_bit decimal :
  to_rle {| mask := [true] |} = [0; 0]%N
  ∧ compress {| mask := [true] |} = Returned [true; true]
  ∧ ∀ fuel, decompress decimal fuel [true; true] = Returned {| mask := [] |}.
Proof. split_and!; try reflexivity. intros fuel. by destruct fuel. Qed.

(** C6 as stated fails: the mask ["01001010"] has three live bits and four
    zero runs; its run lengths are not [[1; 2; 1; 1; 0]]. *)
Lemma rle_of_01001010_has_four_runs :
  ∃ m, (∀ decimal,
          from_bit_string decimal (code_points "01001010") = Returned m)
       ∧ to_rle m ≠ [1; 2; 1; 1; 0]%N.
Proof. eexists. split; [reflexivity|]. vm_compute. discriminate. Qed.

(** C6, as the code has it. For the mask written ["01001010"] (8 bits, 3
    of them live) [to_rle] returns [[1; 2; 1; 1]]: one run more than there
    are live bits, the last run being the one zero after the last live bit. *)
Theorem to_rle_01001010 (decimal : N → option N) :
  ∃ m, from_bit_string decimal (code_points "01001010") = Returned m
       ∧ length (mask m) = 8
       ∧ length (filter (λ bit, bit = true) (mask m)) = 3
       ∧ to_rle m = [1; 2; 1; 1]%N.
Proof. eexists. split; [reflexivity|]. by vm_compute. Qed.

Lemma elem_of_code_points_digits c :
  c ∈ code_points "0123456789" ↔ (48 ≤ c ≤ 57)%N.
Proof.
  change (code_points "0123456789")
    with [48; 49; 50; 51; 52; 53; 54; 55; 56; 57]%N.
  rewrite !elem_of_cons, elem_of_nil. lia.
Qed.

Lemma int_decimal decimal c :
  isdecimal decimal c = true →
  ∃ n, int decimal c = Returned n ∧ (n =? 0)%N = iszero decimal c.
Proof.
  unfold isdecimal, iszero, int.
  intros [Hc|[Hc Hd]%andb_prop]%orb_prop.
  - apply bool_decide_eq_true, elem_of_code_points_digits in Hc.
    assert ((c <? 128)%N = true) as -> by (apply N.ltb_lt; lia).
    assert ((48 <=? c)%N && (c <=? 57)%N = true) as ->
      by (apply andb_true_intro; split; apply N.leb_le; lia).
    assert ((128 <=? c)%N = false) as -> by (apply N.leb_gt; lia).
    eexists. split; [done|]. rewrite orb_false_r.
    destruct (N.eqb_spec (c - 48) 0), (N.eqb_spec c 48); try done; lia.
  - apply N.leb_le in Hc as Hc'. apply bool_decide_eq_true in Hd as [n Hn].
    assert ((c <? 128)%N = false) as -> by (apply N.ltb_ge; lia).
    assert ((c =? 48)%N = false) as -> by (apply N.eqb_neq; lia).
    rewrite Hn, Hc. exists n. split; [done|]. simpl.
    destruct (N.eqb_spec n 0) as [->|Hne]; symmetry.
    + by apply bool_decide_eq_true.
    + apply bool_decide_eq_false. congruence.
Qed.

Lemma int_not_decimal decimal c :
  isdecimal decimal c = false → int decimal c = Raised ValueError.
Proof.
  unfold isdecimal, int.
  intros [Hc Hd]%orb_false_elim.
  apply bool_decide_eq_false in Hc. rewrite elem_of_code_points_digits in Hc.
  destruct (N.ltb_spec c 128) as [Hlt|Hge].
  - destruct (N.leb_spec 48 c), (N.leb_spec c 57); simpl; try done. lia.
  - assert ((128 <=? c)%N = true) as Hle by (apply N.leb_le; lia).
    rewrite Hle in Hd. simpl in Hd. apply bool_decide_eq_false in Hd.
    destruct (decimal c) as [n|] eqn:Hn; [|done].
    destruct Hd. by exists n.
Qed.

(** One character that is no decimal digit, wherever it is, makes the
    whole call raise. *)
Lemma from_bit_string_loop_not_decimal decimal chars :
  Exists (λ c, isdecimal decimal c = false) chars →
  comprehension (λ bit, n <- int decimal bit ;; Returned (negb (n =? 0)%N))
                chars
  = Raised ValueError.
Proof.
  induction 1 as [c chars Hc|c chars _ IH]; simpl.
  - by rewrite int_not_decimal.
  - rewrite IH. destruct (isdecimal decimal c) eqn:Hc.
    + by destruct (int_decimal decimal c Hc) as (n & -> & _).
    + by rewrite int_not_decimal.
Qed.

Lemma from_bit_string_loop_decimal decimal chars :
  Forall (λ c, isdecimal decimal c = true) chars →
  comprehension (λ bit, n <- int decimal bit ;; Returned (negb (n =? 0)%N))
                chars
  = Returned (map (λ c, negb (iszero decimal c)) chars).
Proof.
  induction 1 as [|c chars Hc _ IH]; [done|].
  simpl. destruct (int_decimal decimal c Hc) as (n & -> & <-).
  simpl. by rewrite IH.
Qed.

(** C8 as stated fails: ["2"] is neither ['0'] nor ['1'], and
    [from_bit_string] returns a mask for it, whatever the database; nor is
    the Arabic-Indic digit one, U+0661. *)
Lemma digit_two_is_accepted :
  (∀ decimal,
     from_bit_string decimal (code_points "2") = Returned {| mask := [true] |})
  ∧ from_bit_string arabic_indic_digits [1633%N]
    = Returned {| mask := [true] |}.
Proof. split; [intros decimal|]; reflexivity. Qed.

(** C8, as the code has it. [from_bit_string] raises ([ValueError], from
    [int]) whenever the string has a character that is not a decimal digit;
    a string of decimal digits, of whatever script, gives the mask that is
    false at every digit of value 0 and true at every other digit; on a
    string of ['0'] and ['1'] alone it is the inverse of [repr], and it
    reads back every mask [repr] wrote. *)
Theorem from_bit_string_spec (decimal : N → option N) (bit_string : list N)
    (self : LivenessMask) :
  (Exists (λ c, isdecimal decimal c = false) bit_string →
   from_bit_string decimal bit_string = Raised ValueError)
  ∧ (Forall (λ c, isdecimal decimal c = true) bit_string →
     from_bit_string decimal bit_string
     = Returned {| mask := map (λ c, negb (iszero decimal c)) bit_string |})
  ∧ (Forall (λ c, c ∈ code_points "01") bit_string →
     ∃ m, from_bit_string decimal bit_string = Returned m
          ∧ code_points (repr m) = bit_string)
  ∧ from_bit_string decimal (code_points (repr self)) = Returned self.
Proof.
  split_and!.
  - intros H. unfold from_bit_string.
    by rewrite from_bit_string_loop_not_decimal.
  - intros H. unfold from_bit_string.
    by rewrite from_bit_string_loop_decimal.
  - intros H. unfold from_bit_string.
    assert (Forall (λ c, c = 48%N ∨ c = 49%N) bit_string) as H'.
    { eapply Forall_impl; [done|]. intros c.
      change (code_points "01") with [48; 49]%N.
      rewrite !elem_of_cons, elem_of_nil. tauto. }
    rewrite from_bit_string_loop_decimal.
    2:{ eapply Forall_impl; [done|]. by intros c [-> | ->]. }
    simpl. eexists. split; [done|]. unfold code_points.
    induction H' as [|c chars Hc _ IH]; [done|].
    apply Forall_cons in H as [_ H].
    simpl map. rewrite repr_cons. simpl. f_equal; [|by apply IH].
    by destruct Hc as [-> | ->].
  - apply from_bit_string_repr.
Qed.

Lemma from_bit_string_spec_witness :
  from_bit_string arabic_indic_digits [48; 1633; 97; 48]%N = Raised ValueError
  ∧ from_bit_string arabic_indic_digits [48; 1633; 57; 1632]%N
    = Returned {| mask := [false; true; true; false] |}
  ∧ (∃ m, from_bit_string arabic_indic_digits (code_points "0110") = Returned m
          ∧ code_points (repr m) = code_points "0110").
Proof.
  split_and!.
  - apply (from_bit_string_spec arabic_indic_digits [48; 1633; 97; 48]%N
             {| mask := [] |}).
    do 2 apply Exists_cons_tl. by apply Exists_cons_hd.
  - apply (from_bit_string_spec arabic_indic_digits [48; 1633; 57; 1632]%N
             {| mask := [] |}).
    by repeat constructor.
  - apply (from_bit_string_spec arabic_indic_digits (code_points "0110")
             {| mask := [] |}).
    change (code_points "0110") with [48; 49; 49; 48]%N.
    change (code_points "01") with [48; 49]%N.
    repeat first [apply Forall_nil_2
                 |apply Forall_cons_2;
                  [(by apply list_elem_of_here)
                   || (by apply list_elem_of_further, list_elem_of_here)|]].
Defined.

Local Close Scope string_scope.

(** * Further properties *)

(** ** Bit lists, both ways *)

(** X1. [bit_list_to_int] undoes [int_to_bit_list] on every number. *)
Theorem bit_list_to_int_inverts (n : N) :
  bit_list_to_int (int_to_bit_list n) = n.
Proof. apply bit_list_to_int_to_bit_list. Qed.

Lemma bit_list_to_int_N_bits bits :
  last bits ≠ Some false → N_bits (bit_list_to_int bits) = bits.
Proof.
  induction bits as [|b bits IH]; [done|].
  intros Hlast. rewrite bit_list_to_int_cons.
  destruct bits as [|b' bits].
  - destruct b; [done|]. by simpl in Hlast.
  - specialize (IH Hlast).
    destruct (bit_list_to_int (b' :: bits)) as [|p]; [done|].
    simpl in IH. rewrite <-IH. by destruct b.
Qed.

(** X2. [int_to_bit_list] undoes [bit_list_to_int] on the bit lists that do
    not end in [False]; a final [False] adds nothing to the number and is
    not written back. *)
Theorem int_to_bit_list_inverts (bits : list bool) :
  last bits ≠ Some false →
  int_to_bit_list (bit_list_to_int bits) = bits.
Proof.
  intros Hlast. rewrite int_to_bit_list_N_bits.
  by apply bit_list_to_int_N_bits.
Qed.

Lemma int_to_bit_list_inverts_witness :
  int_to_bit_list (bit_list_to_int [false; true; true]) = [false; true; true].
Proof. apply int_to_bit_list_inverts. discriminate. Defined.

Lemma pos_bits_bounds p :
  (2 ^ N.of_nat (length (pos_bits p) - 1) ≤ N.pos p
   ∧ N.pos p < 2 ^ N.of_nat (length (pos_bits p)))%N
  ∧ last (pos_bits p) = Some true.
Proof.
  induction p as [p [[IHl IHu] IHlast]|p [[IHl IHu] IHlast]|]; simpl length.
  - assert (0 < length (pos_bits p)) as Hpos by (destruct p; simpl; lia).
    replace (S (length (pos_bits p)) - 1) with (S (length (pos_bits p) - 1))
      by lia.
    rewrite !Nat2N.inj_succ, !N.pow_succ_r'. split; [lia|].
    simpl. by destruct (pos_bits p).
  - assert (0 < length (pos_bits p)) as Hpos by (destruct p; simpl; lia).
    replace (S (length (pos_bits p)) - 1) with (S (length (pos_bits p) - 1))
      by lia.
    rewrite !Nat2N.inj_succ, !N.pow_succ_r'. split; [lia|].
    simpl. by destruct (pos_bits p).
  - simpl. split; [lia|done].
Qed.

(** X3. [int_to_bit_list n] has just the bits [n] needs: [n] is below
    [2 ** len], and a non-zero [n] is at least [2 ** (len - 1)], its list
    ending in [True]; zero gives the empty list. *)
Theorem int_to_bit_list_minimal (n : N) :
  (n < 2 ^ N.of_nat (length (int_to_bit_list n)))%N
  ∧ (n = 0%N → int_to_bit_list n = [])
  ∧ (n ≠ 0%N →
     (2 ^ N.of_nat (length (int_to_bit_list n) - 1) ≤ n)%N
     ∧ last (int_to_bit_list n) = Some true).
Proof.
  rewrite int_to_bit_list_N_bits. destruct n as [|p]; simpl.
  - split_and!; [lia|done|done].
  - destruct (pos_bits_bounds p) as [[Hl Hu] Hlast]. split_and!; done.
Qed.

(** ** The size and the shape of a serialized tree *)

Lemma length_leaves_pos t : 0 < length (leaves t).
Proof. pose proof (leaves_nonempty t). destruct (leaves t); simpl; [done|lia]. Qed.

(** X4. A serialized tree takes one bit per inner node and, per leaf, two
    bits and twice the bits of its symbol: with [L] leaves that is
    [3 * L - 1] bits and twice the bits of the symbols. *)
Theorem length_serialize (t : HuffmanCodeTree) :
  length (serialize t) + 1
  = 3 * length (leaves t)
    + 2 * sum_list_with (λ s, length (int_to_bit_list s)) (leaves t).
Proof.
  induction t as [c s|c l IHl r IHr].
  - rewrite serialize_leaf. simpl. rewrite length_app, length_replicate.
    simpl. lia.
  - simpl. rewrite !length_app, sum_list_with_app. lia.
Qed.

(** X5. A serialized tree marks its own end: if two serialized trees, each
    followed by some bits, give the same bit list, the trees have the same
    shape and symbols and the bits that follow are the same. *)
Theorem serialize_self_delimiting (t1 t2 : HuffmanCodeTree)
    (rest1 rest2 : list bool) :
  serialize t1 ++ rest1 = serialize t2 ++ rest2 →
  unweighted t1 = unweighted t2 ∧ rest1 = rest2.
Proof.
  intros H. pose proof (parse_serialize_app t1 rest1) as H1.
  rewrite H, parse_serialize_app in H1. by injection H1 as -> ->.
Qed.

Lemma serialize_self_delimiting_witness :
  unweighted (HuffmanCodeLeaf (Some 3%N) 2%N) = unweighted (HuffmanCodeLeaf None 2%N)
  ∧ [true; false] = [true; false].
Proof. by apply serialize_self_delimiting. Defined.

Lemma bit_list_to_int_lt bits :
  (bit_list_to_int bits < 2 ^ N.of_nat (length bits))%N.
Proof.
  induction bits as [|b bits IH]; [done|].
  rewrite bit_list_to_int_cons. simpl length.
  rewrite Nat2N.inj_succ, N.pow_succ_r'. destruct b; simpl N.b2n; lia.
Qed.

(** Fewer bits than [n] needs make a smaller number. *)
Lemma bit_list_to_int_take_lt n k :
  k < length (int_to_bit_list n) →
  (bit_list_to_int (take k (int_to_bit_list n)) < n)%N.
Proof.
  rewrite int_to_bit_list_N_bits. destruct n as [|p]; simpl; [lia|].
  intros Hk. destruct (pos_bits_bounds p) as [[Hl _] _].
  pose proof (bit_list_to_int_lt (take k (pos_bits p))) as Hlt.
  rewrite length_take, Nat.min_l in Hlt by lia.
  assert (2 ^ N.of_nat k ≤ 2 ^ N.of_nat (length (pos_bits p) - 1))%N
    by (apply N.pow_le_mono_r; lia).
  lia.
Qed.

Lemma length_serialize_last_symbol t :
  2 * length (int_to_bit_list (last_symbol t)) + 2 ≤ length (serialize t).
Proof.
  induction t as [c s|c l IHl r IHr].
  - rewrite serialize_leaf. simpl. rewrite length_app, length_replicate.
    simpl. lia.
  - simpl. rewrite length_app. lia.
Qed.

(** A leaf cut short: [parse_leaf] takes the symbol bits that are left when
    the cut spares the length prefix, and raises when it does not. *)
Lemma parse_leaf_cut_symbol symbol_bits q k :
  k ≠ [] →
  replicate (length symbol_bits) false ++ true :: symbol_bits = q ++ k →
  (length symbol_bits < length k → parse_leaf q = Raised IndexError)
  ∧ (length k ≤ length symbol_bits →
     parse_leaf q
     = Returned (HuffmanCodeLeaf None
                   (bit_list_to_int
                      (take (length symbol_bits - length k) symbol_bits)),
                 [])).
Proof.
  intros Hk Hcut. symmetry in Hcut. unfold parse_leaf.
  apply app_eq_inv in Hcut as [(j & -> & Hj)|(j & Hj & ->)].
  - destruct j as [|b j].
    + rewrite app_nil_r. simpl in Hj. subst k. simpl. split; [|lia].
      intros _. rewrite parse_leaf_len_zeros_only; [done|].
      apply Forall_replicate_eq.
    + simpl in Hj. injection Hj as <- Hj. split.
      { rewrite Hj, length_app. lia. }
      intros _. rewrite parse_leaf_len_zeros. simpl.
      assert (length j ≤ length symbol_bits) by (rewrite Hj, length_app; lia).
      rewrite take_ge, drop_ge by lia. do 3 f_equal.
      rewrite Hj at 2. rewrite Hj, length_app.
      replace (length j + length k - length k) with (length j) by lia.
      by rewrite take_app_length.
  - rewrite length_app. simpl. split; [|lia].
    intros _. rewrite parse_leaf_len_zeros_only; [done|].
    assert (Forall (eq false) (q ++ j)) as [? _]%Forall_app; [|done].
    rewrite <-Hj. apply Forall_replicate_eq.
Qed.

(** A serialized tree cut short: [parse] raises unless the bits that are
    missing are all symbol bits of the last leaf. *)
Lemma parse_fuel_cut_symbol t q k fuel :
  k ≠ [] → serialize t = q ++ k → length q < fuel →
  (length (int_to_bit_list (last_symbol t)) < length k →
   parse_fuel fuel q = Raised IndexError)
  ∧ (length k ≤ length (int_to_bit_list (last_symbol t)) →
     parse_fuel fuel q
     = Returned (with_last_symbol (unweighted t)
                   (bit_list_to_int
                      (take (length (int_to_bit_list (last_symbol t)) - length k)
                            (int_to_bit_list (last_symbol t)))),
                 [])).
Proof.
  intros Hk. revert q fuel.
  induction t as [c s|c l IHl r IHr]; intros q fuel Hcut Hfuel.
  - rewrite serialize_leaf in Hcut. destruct fuel as [|fuel]; [lia|].
    destruct q as [|b q].
    + simpl in Hcut. subst k. simpl. rewrite length_app, length_replicate.
      simpl. split; [done|lia].
    + injection Hcut as <- Hcut. simpl.
      by apply parse_leaf_cut_symbol.
  - destruct fuel as [|fuel]; [lia|].
    pose proof (length_serialize_last_symbol r) as Hlast.
    simpl in Hcut. simpl last_symbol.
    destruct q as [|b q].
    + simpl in Hcut. subst k. simpl. rewrite length_app.
      split; [done|lia].
    + injection Hcut as <- Hcut. simpl in Hfuel.
      apply app_eq_inv in Hcut as [(j & Hl & ->)|(j & -> & Hr)].
      * rewrite length_app. split; [|lia]. intros _. simpl.
        destruct j as [|b j].
        -- rewrite app_nil_r in Hl. subst q.
           rewrite <-(app_nil_r (serialize l)), parse_fuel_serialize
             by (pose proof (depth_lt_serialize l); lia).
           simpl. destruct fuel; [lia|done].
        -- destruct (parse_fuel_cut l q fuel) as [->|(t' & ->)];
             [by exists (b :: j)|lia|done|].
           simpl. destruct fuel; [lia|done].
      * rewrite length_app in Hfuel. pose proof (depth_lt_serialize l).
        simpl. rewrite parse_fuel_serialize by lia. simpl.
        destruct (IHr j fuel) as [Hraise Hreturn]; [done|lia|].
        split; intros Hlen.
        -- by rewrite Hraise.
        -- rewrite Hreturn by done. simpl.
           unfold HuffmanCodeNonLeaf. by rewrite count_unweighted.
Qed.

(** X6. [parse] applied to a serialized tree that was cut short raises
    [IndexError], unless the bits that are missing are all symbol bits of
    the last leaf: then the slice takes the symbol bits there are, and
    [parse] returns, with no bits left and without an error, the tree whose
    last leaf has the number of those bits for its symbol, a smaller number
    than the symbol that was written. *)
Theorem parse_truncated (t : HuffmanCodeTree) (bits : list bool) :
  proper_prefix bits (serialize t) →
  let symbol_bits := int_to_bit_list (last_symbol t) in
  let missing := length (serialize t) - length bits in
  (length symbol_bits < missing → parse bits = Raised IndexError)
  ∧ (missing ≤ length symbol_bits →
     ∃ symbol,
       parse bits = Returned (with_last_symbol (unweighted t) symbol, [])
       ∧ symbol
         = bit_list_to_int (take (length symbol_bits - missing) symbol_bits)
       ∧ (symbol < last_symbol t)%N).
Proof.
  intros (k & Hk & Hcut). simpl.
  destruct (parse_fuel_cut_symbol t bits k (S (length bits)) Hk Hcut)
    as [Hraise Hreturn]; [lia|].
  assert (length (serialize t) - length bits = length k) as ->
    by (rewrite Hcut, length_app; lia).
  split; [done|]. intros Hlen. eexists. split_and!; [by apply Hreturn|done|].
  apply bit_list_to_int_take_lt. destruct k; [done|simpl in *; lia].
Qed.

Lemma parse_truncated_witness :
  parse [true; false; false; false] = Raised IndexError
  ∧ ∃ symbol,
      parse [true; false; false; false; true; true; false]
      = Returned (HuffmanCodeLeaf None symbol, [])
      ∧ symbol = 1%N
      ∧ (symbol < 5)%N.
Proof.
  split.
  - apply (parse_truncated (HuffmanCodeLeaf None 5%N) [true; false; false; false]).
    + exists [true; true; false; true]. split; [done|reflexivity].
    + simpl. lia.
  - apply (parse_truncated (HuffmanCodeLeaf None 5%N)
             [true; false; false; false; true; true; false]).
    + exists [true]. split; [done|reflexivity].
    + simpl. lia.
Defined.

Lemma parse_leaf_len_outcome bits n :
  match parse_leaf_len bits n with
  | Returned (_, rest) => ∃ consumed, consumed ≠ [] ∧ bits = consumed ++ rest
  | Raised e => e = IndexError
  | OutOfFuel => False
  end.
Proof.
  revert n. induction bits as [|[] bits IH]; intros n; simpl; [done| |].
  - by exists [true].
  - specialize (IH (S n)).
    destruct (parse_leaf_len bits (S n)) as [[k rest]| |]; [|done..].
    destruct IH as (consumed & _ & ->). by exists (false :: consumed).
Qed.

Lemma parse_fuel_outcome fuel bits :
  match parse_fuel fuel bits with
  | Returned (t, rest) =>
      (∃ consumed, consumed ≠ [] ∧ bits = consumed ++ rest)
      ∧ unweighted t = t
  | Raised e => e = IndexError
  | OutOfFuel => True
  end.
Proof.
  revert bits. induction fuel as [|fuel IH]; intros bits; [done|].
  destruct bits as [|[] bits]; simpl; [done| |].
  - unfold parse_leaf. pose proof (parse_leaf_len_outcome bits 0) as H.
    destruct (parse_leaf_len bits 0) as [[k rest]| |]; simpl; [|done..].
    destruct H as (consumed & _ & ->). split; [|done].
    exists (true :: consumed ++ take k rest). split; [done|].
    simpl. by rewrite <-app_assoc, take_drop.
  - pose proof (IH bits) as Hl.
    destruct (parse_fuel fuel bits) as [[l bits1]| |]; simpl; [|done..].
    destruct Hl as [(consumed1 & _ & ->) Hl].
    pose proof (IH bits1) as Hr.
    destruct (parse_fuel fuel bits1) as [[r bits2]| |]; simpl; [|done..].
    destruct Hr as [(consumed2 & _ & ->) Hr]. split.
    + exists (false :: consumed1 ++ consumed2). split; [done|].
      simpl. by rewrite <-app_assoc.
    + unfold HuffmanCodeNonLeaf. rewrite <-Hl, <-Hr, !count_unweighted.
      simpl. by rewrite !unweighted_idemp.
Qed.

(** X7. When [parse] returns, it has taken at least one bit off the front
    of the list, the bits it leaves are the rest of the list, and no node of
    the tree it returns has a count. *)
Theorem parse_outcome (bits rest : list bool) (t : HuffmanCodeTree) :
  parse bits = Returned (t, rest) →
  (∃ consumed, consumed ≠ [] ∧ bits = consumed ++ rest)
  ∧ unweighted t = t.
Proof.
  intros Hparse.
  pose proof (parse_fuel_outcome (S (length bits)) bits) as H.
  unfold parse in Hparse. by rewrite Hparse in H.
Qed.

Lemma parse_outcome_witness :
  (∃ consumed,
     consumed ≠ []
     ∧ [false; true; true; true; false; true; true; false]
       = consumed ++ [false])
  ∧ unweighted (NonLeaf None (HuffmanCodeLeaf None 0%N) (HuffmanCodeLeaf None 1%N))
    = NonLeaf None (HuffmanCodeLeaf None 0%N) (HuffmanCodeLeaf None 1%N).
Proof.
  apply (parse_outcome [false; true; true; true; false; true; true; false]).
  reflexivity.
Defined.

(** ** The codeword map *)

(** X8. The keys of the codeword map are the symbols at the leaves of the
    tree, no more and no less. *)
Theorem symbol_prefix_map_keys (t : HuffmanCodeTree) (s : N) :
  is_Some (symbol_prefix_map t !! s) ↔ s ∈ leaves t.
Proof. apply symbol_prefix_map_dom. Qed.

Lemma walk_length t bits node :
  walk t bits = Returned (node, []) → length bits ≤ depth t.
Proof.
  revert bits. induction t as [c s|c l IHl r IHr]; intros bits; simpl.
  - by intros [= _ ->].
  - destruct bits as [|[] bits]; simpl; [done|intros H%IHr|intros H%IHl]; lia.
Qed.

(** X9. The codeword of a symbol is a path to a leaf of that symbol: the
    descent along the codeword, whatever bits follow it, stops at such a
    leaf and leaves the bits that follow; and a codeword is no longer than
    the tree is deep. *)
Theorem codeword_leads_to_symbol (t : HuffmanCodeTree) (s : N)
    (codeword : list bool) :
  symbol_prefix_map t !! s = Some codeword →
  length codeword ≤ depth t
  ∧ ∃ c, ∀ rest,
      walk t (codeword ++ rest) = Returned (HuffmanCodeLeaf c s, rest).
Proof.
  intros [c Hc]%symbol_prefix_map_lookup. split; [|by exists c].
  specialize (Hc []). rewrite app_nil_r in Hc. by eapply walk_length.
Qed.

Lemma codeword_leads_to_symbol_witness :
  length [true; false] ≤ 2
  ∧ ∃ c, ∀ rest,
      walk (NonLeaf None (HuffmanCodeLeaf None 7%N)
              (NonLeaf None (HuffmanCodeLeaf None 0%N) (HuffmanCodeLeaf None 3%N)))
           ([true; false] ++ rest)
      = Returned (HuffmanCodeLeaf c 0%N, rest).
Proof.
  apply (codeword_leads_to_symbol
           (NonLeaf None (HuffmanCodeLeaf None 7%N)
              (NonLeaf None (HuffmanCodeLeaf None 0%N)
                 (HuffmanCodeLeaf None 3%N))) 0%N [true; false]).
  reflexivity.
Defined.

(** ** The tree [for_symbols] builds *)

(** X10. For a non-empty sequence [for_symbols] returns a tree that has one
    leaf for each distinct symbol of the sequence: the symbols at its leaves
    are those of the sequence, and no two leaves carry the same symbol. *)
Theorem for_symbols_one_leaf_per_symbol (symbols : list N) :
  symbols ≠ [] →
  ∃ t, for_symbols symbols = Returned t
       ∧ NoDup (leaves t)
       ∧ ∀ s, s ∈ leaves t ↔ s ∈ symbols.
Proof.
  intros Hne. destruct (for_symbols_Returned symbols Hne) as (t & Ht & Hl).
  exists t. split_and!; [done|..].
  - rewrite Hl. apply Counter_NoDup.
  - intros s. by rewrite Hl, Counter_keys.
Qed.

Lemma for_symbols_one_leaf_per_symbol_witness :
  ∃ t, for_symbols [4; 0; 4; 4; 9]%N = Returned t
       ∧ NoDup (leaves t)
       ∧ ∀ s, s ∈ leaves t ↔ s ∈ [4; 0; 4; 4; 9]%N.
Proof. by apply for_symbols_one_leaf_per_symbol. Defined.

(** X11. The tree is a lone leaf exactly when all the symbols of the
    sequence are the same; with two distinct symbols the root is an inner
    node. *)
Theorem for_symbols_leaf_iff (symbols : list N) :
  symbols ≠ [] →
  ∃ t, for_symbols symbols = Returned t
       ∧ (is_leaf t ↔ ∀ a b, a ∈ symbols → b ∈ symbols → a = b).
Proof.
  intros Hne. destruct (for_symbols_Returned symbols Hne) as (t & Ht & Hl).
  exists t. split; [done|]. split.
  - intros Hleaf a b Ha Hb.
    destruct (decide (a = b)) as [|Hab]; [done|].
    by destruct (for_symbols_inner symbols t a b Ht Ha Hb Hab).
  - intros Hsame. destruct t as [c s|c l r]; [done|]. exfalso.
    pose proof (for_symbols_NoDup _ _ Ht Hne) as Hnd. simpl in Hnd.
    apply NoDup_app in Hnd as (_ & Hdisj & _).
    pose proof (leaves_nonempty l) as Hl'. pose proof (leaves_nonempty r) as Hr'.
    destruct (leaves l) as [|a ?] eqn:El; [done|].
    destruct (leaves r) as [|b ?] eqn:Er; [done|].
    apply (Hdisj a); [left|].
    assert (a = b) as ->; [|left].
    apply Hsame; apply (for_symbols_leaves _ _ _ Ht Hne); simpl;
      rewrite El, Er, elem_of_app; [left|right]; left.
Qed.

Lemma for_symbols_leaf_iff_witness :
  ∃ t, for_symbols [6; 6; 6]%N = Returned t
       ∧ (is_leaf t ↔ ∀ a b, a ∈ [6; 6; 6]%N → b ∈ [6; 6; 6]%N → a = b).
Proof. by apply for_symbols_leaf_iff. Defined.

(** *** Counts *)

Lemma dict_get_setitem d key value x default :
  dict_get (dict_setitem d key value) x default
  = if decide (x = key) then value else dict_get d x default.
Proof.
  induction d as [|[k v] d IH]; simpl.
  - repeat case_decide; congruence.
  - repeat (case_decide; simpl); subst; try congruence.
Qed.

Lemma occurrences_cons x symbols s :
  occurrences (x :: symbols) s
  = (if decide (x = s) then 1 else 0) + occurrences symbols s.
Proof.
  unfold occurrences. rewrite filter_cons. by case_decide.
Qed.

Lemma Counter_loop_get (d : list (N * N)) symbols s :
  dict_get
    (foldl (λ self elem, dict_setitem self elem (dict_get self elem 0 + 1)%N)
           d symbols) s 0
  = (dict_get d s 0 + N.of_nat (occurrences symbols s))%N.
Proof.
  revert d. induction symbols as [|x symbols IH]; intros d; simpl.
  - unfold occurrences. simpl. lia.
  - rewrite IH, dict_get_setitem, occurrences_cons.
    repeat case_decide; subst; try congruence; lia.
Qed.

Lemma dict_get_elem (d : list (N * N)) k v default :
  NoDup d.*1 → (k, v) ∈ d → dict_get d k default = v.
Proof.
  induction d as [|[k' v'] d IH]; simpl; [by intros _ ?%elem_of_nil|].
  rewrite NoDup_cons. intros [Hk Hd] [[= -> ->]|Hin]%elem_of_cons.
  - by rewrite decide_True.
  - case_decide as Heq; [|by apply IH]. subst. destruct Hk.
    apply list_elem_of_fmap. by exists (k, v).
Qed.

(** The counter counts: every entry holds the number of occurrences of its
    key. *)
Lemma Counter_counts symbols s c :
  (s, c) ∈ Counter symbols → c = N.of_nat (occurrences symbols s).
Proof.
  intros Hin.
  rewrite <-(dict_get_elem _ _ _ 0%N (Counter_NoDup symbols) Hin).
  unfold Counter. by rewrite Counter_loop_get.
Qed.

Lemma sum_indicator (keys : list N) x :
  NoDup keys → x ∈ keys →
  sum_list_with (λ s, if decide (x = s) then 1 else 0) keys = 1.
Proof.
  induction keys as [|k keys IH]; [by intros _ ?%elem_of_nil|].
  rewrite NoDup_cons. intros [Hk Hnd] Hin. simpl.
  case_decide as Heq.
  - subst k. clear IH Hin Hnd. f_equal.
    induction keys as [|k keys IH]; [done|]. simpl.
    apply not_elem_of_cons in Hk as [? ?]. rewrite decide_False by done.
    by apply IH.
  - apply elem_of_cons in Hin as [?|Hin]; [done|]. by rewrite IH.
Qed.

Lemma sum_occurrences_cons (keys : list N) x symbols :
  sum_list_with (occurrences (x :: symbols)) keys
  = sum_list_with (λ s, if decide (x = s) then 1 else 0) keys
    + sum_list_with (occurrences symbols) keys.
Proof.
  induction keys as [|k keys IH]; [done|].
  simpl. rewrite occurrences_cons, IH. lia.
Qed.

Lemma sum_occurrences (keys symbols : list N) :
  NoDup keys → (∀ s, s ∈ symbols → s ∈ keys) →
  sum_list_with (occurrences symbols) keys = length symbols.
Proof.
  intros Hnd. induction symbols as [|x symbols IH]; intros Hin.
  - unfold occurrences. simpl. clear. induction keys; simpl; auto.
  - rewrite sum_occurrences_cons, sum_indicator, IH; [done| |done|].
    + intros s Hs. apply Hin. by right.
    + apply Hin. by left.
Qed.

Lemma counted_count occ t :
  counted occ t → count t = Some (N.of_nat (sum_list_with occ (leaves t))).
Proof.
  induction t as [c s|c l IHl r IHr]; simpl.
  - intros ->. do 2 f_equal. lia.
  - intros [(cl & cr & Hl & Hr & ->) [Hcl Hcr]].
    rewrite IHl in Hl by done. rewrite IHr in Hr by done.
    injection Hl as <-. injection Hr as <-.
    rewrite sum_list_with_app. f_equal. lia.
Qed.

Lemma counted_comparable occ t : counted occ t → comparable t.
Proof. intros H%counted_count. by eexists. Qed.

Lemma HuffmanCodeNonLeaf_counted occ l r :
  counted occ l → counted occ r → counted occ (HuffmanCodeNonLeaf l r).
Proof.
  intros Hl Hr. unfold HuffmanCodeNonLeaf.
  destruct (counted_comparable _ _ Hl) as [cl Hcl].
  destruct (counted_comparable _ _ Hr) as [cr Hcr].
  rewrite Hcl, Hcr. simpl. split_and!; [|done..]. by exists cl, cr.
Qed.

(** The merge loop keeps the counts right. *)
Lemma for_symbols_loop_counted occ fuel trees :
  trees ≠ [] → length trees ≤ S fuel → Forall (counted occ) trees →
  ∃ t, for_symbols_loop fuel trees = Returned [t] ∧ counted occ t.
Proof.
  revert trees. induction fuel as [|fuel IH]; intros trees Hne Hfuel Hcnt.
  { destruct trees as [|t [|??]]; simpl in *; [done| |lia].
    exists t. split; [done|]. by apply Forall_inv in Hcnt. }
  simpl. case_decide as Hlen.
  2:{ destruct trees as [|t [|??]]; simpl in *; [done| |lia].
      exists t. split; [done|]. by apply Forall_inv in Hcnt. }
  assert (∀ ts, Forall (counted occ) ts → Forall comparable ts) as Hcmp.
  { intros ts Hts. eapply Forall_impl; [done|]. apply counted_comparable. }
  destruct (heappop_Returned __lt__ comparable lt_comparable trees)
    as (l & trees1 & -> & Hperm1); [done|by apply Hcmp|]. simpl.
  assert (Forall (counted occ) (l :: trees1)) as [Hl Hcnt1]%Forall_cons
    by by rewrite Hperm1.
  pose proof (Permutation_length Hperm1) as Hlen1. simpl in Hlen1.
  destruct (heappop_Returned __lt__ comparable lt_comparable trees1)
    as (r & trees2 & -> & Hperm2);
    [by destruct trees1; simpl in *; try lia|by apply Hcmp|].
  simpl.
  assert (Forall (counted occ) (r :: trees2)) as [Hr Hcnt2]%Forall_cons
    by by rewrite Hperm2.
  pose proof (Permutation_length Hperm2) as Hlen2. simpl in Hlen2.
  destruct (heappush_Returned __lt__ comparable lt_comparable trees2
              (HuffmanCodeNonLeaf l r))
    as (trees3 & -> & Hperm3);
    [by apply Hcmp
    |by apply (counted_comparable occ), HuffmanCodeNonLeaf_counted|].
  simpl.
  pose proof (Permutation_length Hperm3) as Hlen3. simpl in Hlen3.
  destruct (IH trees3) as (t & -> & Ht).
  { by destruct trees3. }
  { lia. }
  { rewrite Hperm3. constructor; [|done]. by apply HuffmanCodeNonLeaf_counted. }
  by exists t.
Qed.

Lemma initial_counted symbols :
  Forall (counted (occurrences symbols))
    (map (λ '(symbol, count), HuffmanCodeLeaf (Some count) symbol)
         (Counter symbols)).
Proof.
  assert (∀ counts : list (N * N),
            (∀ s c, (s, c) ∈ counts → c = N.of_nat (occurrences symbols s)) →
            Forall (counted (occurrences symbols))
              (map (λ '(symbol, count), HuffmanCodeLeaf (Some count) symbol)
                   counts)) as H.
  { induction counts as [|[s c] counts IH]; intros Hc; constructor.
    - simpl. f_equal. apply Hc. by left.
    - apply IH. intros s' c' ?. apply Hc. by right. }
  apply H. apply Counter_counts.
Qed.

(** X12. In the tree [for_symbols] builds, every leaf holds the number of
    times its symbol occurs in the sequence, every inner node holds the sum
    of the counts of its two children, and the root holds the length of the
    sequence. *)
Theorem for_symbols_counts (symbols : list N) :
  symbols ≠ [] →
  ∃ t, for_symbols symbols = Returned t
       ∧ counted (occurrences symbols) t
       ∧ count t = Some (N.of_nat (length symbols)).
Proof.
  intros Hne. destruct (for_symbols_Returned symbols Hne) as (t & Ht & Hl).
  exists t. split; [done|].
  assert (counted (occurrences symbols) t) as Hcnt.
  { unfold for_symbols in Ht.
    destruct (heapify_Returned __lt__ comparable lt_comparable _
                (initial_comparable (Counter symbols)))
      as (trees & Hheap & Hperm).
    rewrite Hheap in Ht. simpl in Ht.
    destruct (for_symbols_loop_counted (occurrences symbols)
                (length trees) trees) as (t' & Hloop & Ht').
    { intros ->. apply Permutation_nil_l in Hperm.
      apply (f_equal length) in Hperm. rewrite length_map in Hperm.
      destruct symbols as [|s symbols]; [done|].
      assert (s ∈ (Counter (s :: symbols)).*1) as Hs
        by (apply Counter_keys; left).
      destruct (Counter (s :: symbols)); [by apply elem_of_nil in Hs|done]. }
    { lia. }
    { rewrite Hperm. apply initial_counted. }
    rewrite Hloop in Ht. simpl in Ht. by injection Ht as <-. }
  split; [done|]. rewrite (counted_count _ _ Hcnt), Hl. do 2 f_equal.
  apply sum_occurrences; [apply Counter_NoDup|].
  intros s. by rewrite Counter_keys.
Qed.

Lemma for_symbols_counts_witness :
  ∃ t, for_symbols [4; 0; 4; 4; 9]%N = Returned t
       ∧ counted (occurrences [4; 0; 4; 4; 9]%N) t
       ∧ count t = Some (N.of_nat (length [4; 0; 4; 4; 9]%N)).
Proof. by apply for_symbols_counts. Defined.

(** ** What the codec returns and raises *)

(** X13. [huffman_compress] raises on the empty sequence alone, and then it
    is the [IndexError] of [for_symbols]; on any other sequence it returns
    the serialized tree followed by the codeword of each symbol in turn, so
    no symbol is ever missing from the codeword map. *)
Theorem huffman_compress_outcome (symbols : list N) :
  (symbols = [] ∧ huffman_compress symbols = Raised IndexError)
  ∨ (symbols ≠ []
     ∧ ∃ t codewords,
         for_symbols symbols = Returned t
         ∧ Forall2 (λ s c, symbol_prefix_map t !! s = Some c) symbols codewords
         ∧ huffman_compress symbols
           = Returned (serialize t ++ concat codewords)).
Proof.
  destruct symbols as [|s symbols]; [by left|].
  right. split; [done|]. by apply huffman_compress_Returned.
Qed.

Lemma walk_outcome t bits :
  match walk t bits with
  | Returned (node, rest) =>
      (∃ c s, node = HuffmanCodeLeaf c s ∧ s ∈ leaves t)
      ∧ ∃ consumed, bits = consumed ++ rest ∧ (¬ is_leaf t → consumed ≠ [])
  | Raised e => e = IndexError
  | OutOfFuel => False
  end.
Proof.
  revert bits. induction t as [c s|c l IHl r IHr]; intros bits; simpl.
  - split; [exists c, s; split; [done|by left]|].
    exists []. split; [done|tauto].
  - destruct bits as [|b bits]; simpl; [done|].
    destruct b; [specialize (IHr bits)|specialize (IHl bits)].
    + destruct (walk r bits) as [[node rest]| |]; [|done..].
      destruct IHr as [(c' & s & -> & Hs) (consumed & -> & _)]. split.
      * exists c', s. rewrite elem_of_app. auto.
      * by exists (true :: consumed).
    + destruct (walk l bits) as [[node rest]| |]; [|done..].
      destruct IHl as [(c' & s & -> & Hs) (consumed & -> & _)]. split.
      * exists c', s. rewrite elem_of_app. auto.
      * by exists (false :: consumed).
Qed.

Lemma decompress_loop_outcome fuel t bits acc :
  match decompress_loop fuel t bits acc with
  | Returned symbols =>
      ∃ decoded,
        symbols = acc ++ decoded
        ∧ (∀ s, s ∈ decoded → s ∈ leaves t)
        ∧ (¬ is_leaf t → length decoded ≤ length bits)
  | Raised e => e = IndexError
  | OutOfFuel => True
  end.
Proof.
  revert bits acc. induction fuel as [|fuel IH]; intros bits acc.
  { destruct bits; simpl; [|done]. exists []. rewrite app_nil_r.
    split_and!; [done| |done]. by intros s ?%elem_of_nil. }
  destruct bits as [|b bits].
  { simpl. exists []. rewrite app_nil_r. split_and!; [done| |simpl; lia].
    by intros s ?%elem_of_nil. }
  unfold decompress_loop; fold decompress_loop.
  pose proof (walk_outcome t (b :: bits)) as Hwalk.
  destruct (walk t (b :: bits)) as [[node rest]| |]; simpl; [|done..].
  destruct Hwalk as [(c & s & -> & Hs) (consumed & Hbits & Hne)]. simpl.
  specialize (IH rest (acc ++ [s])).
  destruct (decompress_loop fuel t rest (acc ++ [s])); [|done..].
  destruct IH as (decoded & -> & Hdec & Hlen). exists (s :: decoded).
  rewrite <-app_assoc. split_and!; [done| |].
  - intros s' [->|?]%elem_of_cons; auto.
  - intros Ht. specialize (Hne Ht). specialize (Hlen Ht).
    apply (f_equal length) in Hbits. rewrite length_app in Hbits.
    destruct consumed; simpl in *; [done|lia].
Qed.

(** X14. What [huffman_decompress] returns are symbols of leaves of the
    tree it parsed, and no more of them than there are bits after the
    tree. *)
Theorem huffman_decompress_outcome (fuel : nat) (bits : list bool)
    (symbols : list N) :
  huffman_decompress fuel bits = Returned symbols →
  ∃ t rest,
    parse bits = Returned (t, rest)
    ∧ (∀ s, s ∈ symbols → s ∈ leaves t)
    ∧ length symbols ≤ length rest.
Proof.
  unfold huffman_decompress.
  destruct (parse bits) as [[t rest]|e|]; simpl; [|done..].
  intros Hloop. exists t, rest. split; [done|].
  pose proof (decompress_loop_outcome fuel t rest []) as H.
  rewrite Hloop in H. destruct H as (decoded & -> & Hdec & Hlen).
  simpl in *. split; [done|].
  destruct t as [c s|c l r]; [|apply Hlen; by intros []].
  destruct rest as [|b rest]; [|by rewrite decompress_loop_leaf in Hloop].
  destruct fuel; simpl in Hloop; by injection Hloop as <-.
Qed.

Lemma huffman_decompress_outcome_witness :
  ∃ t rest,
    parse [false; true; true; true; false; true; true; false; true]
    = Returned (t, rest)
    ∧ (∀ s, s ∈ [0; 1]%N → s ∈ leaves t)
    ∧ length [0; 1]%N ≤ length rest.
Proof.
  apply (huffman_decompress_outcome 2). reflexivity.
Defined.

Lemma decompress_loop_finished fuel t bits acc :
  ¬ is_leaf t → length bits ≤ fuel →
  finished (decompress_loop fuel t bits acc).
Proof.
  intros Ht. revert bits acc.
  induction fuel as [|fuel IH]; intros bits acc Hfuel.
  { by destruct bits; simpl in *; [|lia]. }
  destruct bits as [|b bits]; [done|].
  unfold decompress_loop; fold decompress_loop.
  pose proof (walk_outcome t (b :: bits)) as Hwalk.
  destruct (walk t (b :: bits)) as [[node rest]| |]; simpl; [|done..].
  destruct Hwalk as [(c & s & -> & Hs) (consumed & Hbits & Hne)]. simpl.
  apply IH. apply (f_equal length) in Hbits.
  rewrite length_app in Hbits. simpl in *.
  specialize (Hne Ht). destruct consumed; simpl in *; [done|lia].
Qed.

(** X15. [huffman_decompress] either comes to an end within [len(bits)]
    turns of its loop, with the same outcome for any larger bound, or it
    never does; and it never does exactly when the tree it parsed is a lone
    leaf and bits are left after it. *)
Theorem huffman_decompress_halts_or_loops (bits : list bool) :
  (∃ c s b rest,
      parse bits = Returned (HuffmanCodeLeaf c s, b :: rest)
      ∧ diverges (λ fuel, huffman_decompress fuel bits))
  ∨ (∃ r, finished r
          ∧ ∀ fuel, length bits ≤ fuel → huffman_decompress fuel bits = r).
Proof.
  unfold diverges, huffman_decompress.
  destruct (parse bits) as [[t rest]|e|] eqn:Hparse.
  - destruct t as [c s|c l r].
    + destruct rest as [|b rest].
      * right. exists (Returned []). split; [done|]. by intros [|fuel] _.
      * left. exists c, s, b, rest. split; [done|].
        intros fuel. apply decompress_loop_leaf.
    + right. exists (decompress_loop (length bits) (NonLeaf c l r) rest []).
      apply parse_fuel_length in Hparse.
      assert (finished (decompress_loop (length bits) (NonLeaf c l r) rest []))
        as Hfin by (apply decompress_loop_finished; [tauto|lia]).
      split; [done|]. intros fuel Hfuel. simpl.
      by apply decompress_loop_mono.
  - right. by exists (Raised e).
  - pose proof (parse_finished bits) as Hfin. by rewrite Hparse in Hfin.
Qed.

Lemma decompress_compress_replicate n s :
  ∃ bits, huffman_compress (replicate (S n) s) = Returned bits
          ∧ ∀ fuel, huffman_decompress fuel bits = Returned [].
Proof.
  destruct (huffman_compress_Returned (replicate (S n) s))
    as (t & cs & Ht & Hcs & Hrun); [done|].
  rewrite for_symbols_replicate in Ht. injection Ht as <-.
  rewrite (codewords_leaf _ _ _ _ Hcs), app_nil_r in Hrun.
  eexists. split; [done|]. intros fuel.
  rewrite <-(app_nil_r (serialize _)), huffman_decompress_serialize.
  by destruct fuel.
Qed.

(** ** Masks and their runs *)

Local Open Scope string_scope.

(** X16. A mask has one zero run more than it has live bits. *)
Theorem to_rle_length (self : LivenessMask) :
  length (to_rle self) = S (length (filter (λ bit, bit = true) (mask self))).
Proof. apply length_to_rle. Qed.

Lemma sum_cons x l : sum (x :: l) = (x + sum l)%N.
Proof. unfold sum at 1. simpl. rewrite sum_from. lia. Qed.

Lemma sum_split_repr l :
  sum (map (λ zero_run, N.of_nat (String.length zero_run))
           (split "1" (repr {| mask := l |})))
  = N.of_nat (length (filter (λ bit, bit = false) l)).
Proof.
  induction l as [|bit l IH]; [done|].
  rewrite repr_cons. pose proof (split_nonempty "1" (repr {| mask := l |})).
  destruct bit; simpl split.
  - rewrite filter_cons_False by done. simpl map. by rewrite sum_cons, IH.
  - rewrite filter_cons_True by done. simpl length.
    rewrite Nat2N.inj_succ, <-IH.
    destruct (split "1" (repr {| mask := l |})) as [|piece pieces]; [done|].
    simpl map. rewrite !sum_cons. simpl String.length.
    rewrite Nat2N.inj_succ. lia.
Qed.

Lemma sum_to_rle self :
  sum (to_rle self)
  = N.of_nat (length (filter (λ bit, bit = false) (mask self))).
Proof. destruct self as [l]. apply sum_split_repr. Qed.

(** X17. The zero runs of a mask add up to its dead bits: with the live
    bits they make up the length of the mask. *)
Theorem to_rle_sum (self : LivenessMask) :
  sum (to_rle self)
  = N.of_nat (length (filter (λ bit, bit = false) (mask self)))
  ∧ N.to_nat (sum (to_rle self))
    + length (filter (λ bit, bit = true) (mask self))
    = length (mask self).
Proof.
  rewrite sum_to_rle, Nat2N.id. split; [done|].
  destruct self as [l]. simpl mask.
  induction l as [|[] l IH]; [done|..].
  - rewrite filter_cons_False, filter_cons_True by done. simpl. lia.
  - rewrite filter_cons_True, filter_cons_False by done. simpl. lia.
Qed.

Lemma repr_zeros n l :
  repr {| mask := replicate n false ++ l |}
  = string_mul "0" n ++ repr {| mask := l |}.
Proof.
  induction n as [|n IH]; [done|].
  simpl replicate. simpl app. rewrite repr_cons, IH. done.
Qed.

Lemma split_zeros n l :
  split "1" (string_mul "0" n ++ String "1" (repr {| mask := l |}))
  = string_mul "0" n :: split "1" (repr {| mask := l |}).
Proof.
  induction n as [|n IH]; [done|].
  change (string_mul "0" (S n) ++ String "1" (repr {| mask := l |}))
    with (String "0" (string_mul "0" n ++ String "1" (repr {| mask := l |}))).
  simpl split. by rewrite IH.
Qed.

Lemma split_zeros_only n : split "1" (string_mul "0" n) = [string_mul "0" n].
Proof.
  induction n as [|n IH]; [done|].
  change (string_mul "0" (S n)) with (String "0" (string_mul "0" n)).
  simpl split. by rewrite IH.
Qed.

Lemma length_zeros n : String.length (string_mul "0" n) = n.
Proof.
  induction n as [|n IH]; [done|].
  change (string_mul "0" (S n)) with (String "0" (string_mul "0" n)).
  simpl. by rewrite IH.
Qed.

Lemma runs_mask_cons z z' rle :
  runs_mask (z :: z' :: rle)
  = (replicate (N.to_nat z) false ++ true :: runs_mask (z' :: rle))%list.
Proof. reflexivity. Qed.

(** The string [from_rle] builds is the writing of [runs_mask rle]. *)
Lemma join_zeros rle :
  String.concat "1" (map (λ zero_run, string_mul "0" (N.to_nat zero_run)) rle)
  = repr {| mask := runs_mask rle |}.
Proof.
  induction rle as [|z rle IH]; [done|].
  destruct rle as [|z' rle].
  - simpl. rewrite <-(app_nil_r (replicate _ _)), repr_zeros.
    by rewrite repr_nil, append_empty_r.
  - simpl map in *. rewrite concat_sep_cons, IH, runs_mask_cons, repr_zeros.
    by rewrite repr_cons.
Qed.

Lemma from_rle_runs_mask decimal rle :
  from_rle decimal rle = Returned {| mask := runs_mask rle |}.
Proof. unfold from_rle. rewrite join_zeros. apply from_bit_string_repr. Qed.

Lemma to_rle_runs_mask rle :
  rle ≠ [] → to_rle {| mask := runs_mask rle |} = rle.
Proof.
  intros Hne. unfold to_rle. induction rle as [|z rle IH]; [done|].
  destruct rle as [|z' rle].
  - simpl runs_mask. rewrite <-(app_nil_r (replicate _ _)), repr_zeros.
    rewrite repr_nil, append_empty_r, split_zeros_only. simpl.
    by rewrite length_zeros, N2Nat.id.
  - rewrite runs_mask_cons, repr_zeros, repr_cons. simpl bit_char.
    rewrite split_zeros. cbn [map]. rewrite IH by done.
    by rewrite length_zeros, N2Nat.id.
Qed.

(** X18. [to_rle] undoes [from_rle] on every non-empty list of run lengths.
    (On the empty list it does not: [from_rle] gives the empty mask, whose
    run lengths are [[0]].) *)
Theorem to_rle_from_rle (decimal : N → option N) (rle : list N) :
  rle ≠ [] → ∃ m, from_rle decimal rle = Returned m ∧ to_rle m = rle.
Proof.
  intros Hne. exists {| mask := runs_mask rle |}.
  split; [apply from_rle_runs_mask|by apply to_rle_runs_mask].
Qed.

Lemma to_rle_from_rle_witness :
  ∃ m, from_rle arabic_indic_digits [0; 3; 0; 1]%N = Returned m
       ∧ to_rle m = [0; 3; 0; 1]%N.
Proof. by apply to_rle_from_rle. Defined.

(** X19. [from_rle] never raises: for any list of run lengths it returns a
    mask, with one live bit between every two runs (one less than there are
    runs) and as many dead bits as the runs add up to. *)
Theorem from_rle_Returned (decimal : N → option N) (rle : list N) :
  ∃ m, from_rle decimal rle = Returned m
       ∧ length (filter (λ bit, bit = true) (mask m)) = length rle - 1
       ∧ length (filter (λ bit, bit = false) (mask m)) = N.to_nat (sum rle).
Proof.
  exists {| mask := runs_mask rle |}. split; [apply from_rle_runs_mask|].
  simpl mask. destruct rle as [|z rle]; [done|].
  pose proof (length_to_rle {| mask := runs_mask (z :: rle) |}) as Hlen.
  pose proof (sum_to_rle {| mask := runs_mask (z :: rle) |}) as Hsum.
  rewrite to_rle_runs_mask in Hlen, Hsum by done. simpl mask in *.
  rewrite Hsum, Nat2N.id. split; [|done]. simpl in *. lia.
Qed.

(** X20. For a mask whose zero runs all have the same length (the all-dead
    masks, the mask of one live bit, ["010"], ...) [decompress (compress m)]
    returns the empty mask, whatever the mask was: the tree is a lone leaf,
    no codeword is written, and no run length is read back. *)
Theorem decompress_compress_equal_runs (decimal : N → option N)
    (m : LivenessMask) :
  (∀ a b, a ∈ to_rle m → b ∈ to_rle m → a = b) →
  ∃ bits, compress m = Returned bits
          ∧ ∀ fuel, decompress decimal fuel bits = Returned {| mask := [] |}.
Proof.
  intros Hsame. unfold compress, decompress.
  pose proof (length_to_rle m) as Hlen.
  destruct (to_rle m) as [|s rle] eqn:Erle; [done|].
  assert (s :: rle = replicate (S (length rle)) s) as ->.
  { symmetry. apply replicate_as_Forall. split; [done|].
    apply Forall_forall. intros x Hx. apply Hsame; [left|done]. }
  destruct (decompress_compress_replicate (length rle) s) as (bits & Hc & Hd).
  exists bits. split; [done|]. intros fuel. by rewrite Hd.
Qed.

Lemma decompress_compress_equal_runs_witness :
  ∃ bits, compress {| mask := [false; true; false] |} = Returned bits
          ∧ ∀ fuel, decompress arabic_indic_digits fuel bits
                    = Returned {| mask := [] |}.
Proof.
  apply decompress_compress_equal_runs.
  intros a b Ha Hb. vm_compute in Ha, Hb.
  apply elem_of_cons in Ha as [->|Ha], Hb as [->|Hb]; try done;
    try apply list_elem_of_singleton in Ha; try apply list_elem_of_singleton in Hb;
    by subst.
Defined.

Local Close Scope string_scope.

(** ** Random masks *)

Lemma swap_items_Returned {A} (x : list A) i j :
  i < length x → j < length x →
  ∃ x', swap_items x i j = Returned x' ∧ x' ≡ₚ x.
Proof.
  intros [xi Hi]%lookup_lt_is_Some_2 [xj Hj]%lookup_lt_is_Some_2.
  pose proof (lookup_lt_Some _ _ _ Hi). pose proof (lookup_lt_Some _ _ _ Hj).
  unfold swap_items, getitem, setitem. rewrite Hi, Hj. simpl.
  rewrite decide_True by done. simpl.
  rewrite decide_True by by rewrite length_insert.
  eexists. split; [done|].
  rewrite insert_insert_Permutation by done. by rewrite list_insert_id.
Qed.

Lemma list_mul_singleton {A} (x : A) n :
  list_mul [x] n = replicate (Z.to_nat n) x.
Proof.
  unfold list_mul. induction (Z.to_nat n) as [|k IH]; [done|].
  simpl. by rewrite IH.
Qed.

Lemma filter_live_replicate n k :
  filter (λ bit, bit = true) (replicate n true ++ replicate k false)
  = replicate n true.
Proof.
  induction n as [|n IH]; cbn [replicate app].
  - induction k as [|k IHk]; [done|]. cbn [replicate app] in *.
    by rewrite filter_cons_False.
  - rewrite filter_cons_True by done. by rewrite IH.
Qed.

Lemma filter_dead_replicate n k :
  filter (λ bit, bit = false) (replicate n true ++ replicate k false)
  = replicate k false.
Proof.
  induction n as [|n IH]; cbn [replicate app].
  - induction k as [|k IHk]; [done|]. cbn [replicate app] in *.
    rewrite filter_cons_True by done. by rewrite IHk.
  - by rewrite filter_cons_False.
Qed.

Section random_masks.
Context {G : Type} (randbelow : G → nat → nat * G).
(** A draw below [n] is below [n]. *)
Hypothesis randbelow_lt : ∀ g n, 0 < n → (randbelow g n).1 < n.

Lemma shuffle_loop_Returned {A} (x : list A) g indices :
  Forall (λ i, i < length x) indices →
  ∃ x' g',
    for_each (λ '(x, g) i,
                let '(j, g) := randbelow g (i + 1) in
                x <- swap_items x i j ;;
                Returned (x, g))
             (x, g) indices
    = Returned (x', g')
    ∧ x' ≡ₚ x.
Proof.
  revert x g. induction indices as [|i indices IH]; intros x g Hi.
  { by exists x, g. }
  apply Forall_cons in Hi as [Hi His]. simpl.
  pose proof (randbelow_lt g (i + 1) ltac:(lia)) as Hj.
  destruct (randbelow g (i + 1)) as [j g1]. simpl in Hj.
  destruct (swap_items_Returned x i j) as (x1 & -> & Hperm1); [lia..|]. simpl.
  destruct (IH x1 g1) as (x' & g' & -> & Hperm).
  { by rewrite (Permutation_length Hperm1). }
  exists x', g'. split; [done|]. by rewrite Hperm.
Qed.

(** [shuffle] returns its list in some other order. *)
Lemma shuffle_Returned {A} (x : list A) g :
  ∃ x' g', shuffle randbelow g x = Returned (x', g') ∧ x' ≡ₚ x.
Proof.
  apply shuffle_loop_Returned, Forall_reverse, Forall_seq. intros i Hi. lia.
Qed.

(** X21. [random total live] returns a mask with [live] live bits and
    [total - live] dead bits, a negative number counting as none; so when
    [0 <= live <= total] the mask has [total] bits and [live + 1] zero
    runs. *)
Theorem random_counts (g : G) (total_commitments live_commitments : Z) :
  ∃ m g',
    random randbelow g total_commitments live_commitments = Returned (m, g')
    ∧ length (filter (λ bit, bit = true) (mask m))
      = Z.to_nat live_commitments
    ∧ length (filter (λ bit, bit = false) (mask m))
      = Z.to_nat (total_commitments - live_commitments)
    ∧ ((0 ≤ live_commitments ≤ total_commitments)%Z →
       length (mask m) = Z.to_nat total_commitments
       ∧ length (to_rle m) = S (Z.to_nat live_commitments)).
Proof.
  unfold random. rewrite !list_mul_singleton.
  destruct (shuffle_Returned
              (replicate (Z.to_nat live_commitments) true
               ++ replicate (Z.to_nat (total_commitments - live_commitments))
                    false) g) as (x & g' & -> & Hperm).
  simpl. exists {| mask := x |}, g'. split; [done|]. simpl mask.
  pose proof filter_live_replicate as Htrue.
  pose proof filter_dead_replicate as Hfalse.
  assert (length (filter (λ bit, bit = true) x)
          = Z.to_nat live_commitments) as Hlive.
  { rewrite Hperm, Htrue. apply length_replicate. }
  assert (length (filter (λ bit, bit = false) x)
          = Z.to_nat (total_commitments - live_commitments)) as Hdead.
  { rewrite Hperm, Hfalse. apply length_replicate. }
  split; [exact Hlive|]. split; [exact Hdead|].
  intros Hrange. split.
  - rewrite Hperm, length_app, !length_replicate. lia.
  - rewrite length_to_rle. simpl mask. by rewrite Hlive.
Qed.
End random_masks.

Lemma random_counts_witness :
  ∃ m g',
    random (λ (g : unit) (n : nat), (0, g)) tt 8 3 = Returned (m, g')
    ∧ length (filter (λ bit, bit = true) (mask m)) = Z.to_nat 3
    ∧ length (filter (λ bit, bit = false) (mask m)) = Z.to_nat (8 - 3)
    ∧ ((0 ≤ 3 ≤ 8)%Z →
       length (mask m) = Z.to_nat 8
       ∧ length (to_rle m) = S (Z.to_nat 3)).
Proof.
  apply (random_counts (λ (g : unit) (n : nat), (0, g))).
  intros g n Hn. simpl. lia.
Defined.

(** ** The heap stays in order *)

Lemma parent_below j : 0 < j → parent j < j.
Proof. apply parent_lt. Qed.

Lemma parent_children j :
  0 < j → j = 2 * parent j + 1 ∨ j = 2 * parent j + 2.
Proof.
  intros Hj. unfold parent. change (Nat.shiftr (j - 1) 1) with (Nat.div2 (j - 1)).
  destruct (Nat.Even_or_Odd (j - 1)) as [[k Hk]|[k Hk]]; rewrite Hk.
  - rewrite Nat.div2_double. lia.
  - replace (2 * k + 1) with (S (2 * k)) by lia.
    rewrite Nat.div2_succ_double. lia.
Qed.

Lemma parent_left p : parent (2 * p + 1) = p.
Proof.
  unfold parent. change (Nat.shiftr ?x 1) with (Nat.div2 x).
  replace (2 * p + 1 - 1) with (2 * p) by lia. apply Nat.div2_double.
Qed.

Lemma parent_right p : parent (2 * p + 2) = p.
Proof.
  unfold parent. change (Nat.shiftr ?x 1) with (Nat.div2 x).
  replace (2 * p + 2 - 1) with (S (2 * p)) by lia. apply Nat.div2_succ_double.
Qed.

Lemma descends_le s j : descends s j → s ≤ j.
Proof.
  induction 1 as [|j Hj _ IH]; [done|]. pose proof (parent_below j Hj). lia.
Qed.

Lemma descends_parent s j : descends s j → s < j → descends s (parent j).
Proof. intros [|j' ? ?] ?; [lia|done]. Qed.

Lemma descends_root j : descends 0 j.
Proof.
  induction (lt_wf j) as [j _ IH]. destruct j as [|j]; [constructor|].
  apply descends_child; [lia|]. apply IH, parent_below. lia.
Qed.

Lemma edge_ordered_insert {A} (key : A → N) heap i v p j :
  p ≠ i → j ≠ i →
  edge_ordered key (<[i:=v]> heap) p j ↔ edge_ordered key heap p j.
Proof.
  intros Hp Hj. unfold edge_ordered.
  by rewrite !list_lookup_insert_ne.
Qed.

(** The order around a slot does not look at the item in the slot. *)
Lemma gap_ordered_insert {A} (key : A → N) lo heap pos v :
  gap_ordered key lo (<[pos:=v]> heap) pos ↔ gap_ordered key lo heap pos.
Proof.
  unfold gap_ordered. split; intros [H1 H3]; split.
  - intros j ? ? ? ?. apply (edge_ordered_insert key heap pos v); auto.
  - intros Hlo j Hj Hp.
    apply (edge_ordered_insert key heap pos v);
      [pose proof (parent_below pos); lia|pose proof (parent_below j Hj); lia|].
    auto.
  - intros j ? ? ? ?. apply edge_ordered_insert; auto.
  - intros Hlo j Hj Hp.
    apply edge_ordered_insert;
      [pose proof (parent_below pos); lia|pose proof (parent_below j Hj); lia|].
    auto.
Qed.

(** Filling the slot puts the heap in order when the item fits between the
    parent and the children of the slot. *)
Lemma gap_filled {A} (key : A → N) lo heap pos newitem :
  pos < length heap →
  gap_ordered key lo heap pos →
  (∀ j y, 0 < j → parent j = pos → heap !! j = Some y →
          (key newitem ≤ key y)%N) →
  (0 < pos → lo ≤ parent pos → ∀ x, heap !! parent pos = Some x →
             (key x ≤ key newitem)%N) →
  heap_ordered_from key lo (<[pos:=newitem]> heap).
Proof.
  intros Hpos [H1 _] Hbelow Habove j Hj Hlo x y Hx Hy.
  pose proof (parent_below j Hj) as Hpj.
  destruct (decide (j = pos)) as [->|Hne].
  - rewrite list_lookup_insert_eq in Hy by done. injection Hy as <-.
    rewrite list_lookup_insert_ne in Hx by lia. by apply Habove.
  - rewrite list_lookup_insert_ne in Hy by done.
    destruct (decide (parent j = pos)) as [Hp|Hp].
    + rewrite Hp, list_lookup_insert_eq in Hx by done. injection Hx as <-.
      by apply (Hbelow j).
    + rewrite list_lookup_insert_ne in Hx by done. by apply (H1 j).
Qed.

Section heap_order.
Context {A : Type} (item_lt : A → A → result bool).
(** [P] holds of the items [item_lt] can compare, and it compares them by
    their [key]. *)
Context (P : A → Prop) (key : A → N).
Hypothesis item_lt_key :
  ∀ a b, P a → P b → item_lt a b = Returned (key a <? key b)%N.

Lemma item_lt_total a b : P a → P b → ∃ c, item_lt a b = Returned c.
Proof. intros Ha Hb. rewrite item_lt_key by done. eauto. Qed.

Lemma siftdown_loop_ordered fuel heap startpos pos newitem :
  pos < length heap → pos ≤ fuel → Forall P heap → P newitem →
  descends startpos pos →
  gap_ordered key startpos heap pos →
  (∀ j y, 0 < j → parent j = pos → heap !! j = Some y →
          (key newitem ≤ key y)%N) →
  ∃ heap' pos',
    heapq.siftdown_loop item_lt fuel heap startpos pos newitem
    = Returned (heap', pos')
    ∧ pos' < length heap'
    ∧ heap_ordered_from key startpos (<[pos':=newitem]> heap').
Proof.
  revert heap pos.
  induction fuel as [|fuel IH];
    intros heap pos Hpos Hfuel HP Hnew Hdesc Hgap Hbelow.
  { exists heap, pos. simpl. rewrite decide_False by lia.
    split_and!; [done..|]. apply gap_filled; [done..|]. lia. }
  simpl. case_decide as Hstart.
  2:{ exists heap, pos. split_and!; [done..|]. apply gap_filled; [done..|].
      intros Hp Hlo. pose proof (parent_below pos Hp).
      apply descends_le in Hdesc. lia. }
  change (Nat.div2 (pos - 1)) with (parent pos).
  pose proof (parent_below pos ltac:(lia)) as Hparent.
  destruct (getitem_Returned P heap (parent pos))
    as (x & Hx & -> & HPx); [lia|done|]. simpl.
  rewrite item_lt_key by done. simpl.
  destruct (N.ltb_spec (key newitem) (key x)) as [Hlt|Hge].
  2:{ exists heap, pos. split_and!; [done..|]. apply gap_filled; [done..|].
      intros _ _ x' Hx'. congruence. }
  rewrite setitem_Returned by done. simpl.
  pose proof (descends_parent _ _ Hdesc Hstart) as Hdesc'.
  destruct Hgap as [H1 H3].
  destruct (IH (<[pos:=x]> heap) (parent pos))
    as (heap' & pos' & -> & Hpos' & Hord).
  - rewrite length_insert. lia.
  - lia.
  - by apply Forall_insert.
  - done.
  - done.
  - split.
    + intros j Hj Hlo Hp Hne a b Ha Hb.
      pose proof (parent_below j Hj) as Hpj.
      destruct (decide (j = pos)) as [->|Hjpos]; [done|].
      rewrite list_lookup_insert_ne in Hb by done.
      destruct (decide (parent j = pos)) as [Hppos|Hppos].
      * rewrite Hppos, list_lookup_insert_eq in Ha by done. injection Ha as <-.
        by apply (H3 Hstart j Hj Hppos x b).
      * rewrite list_lookup_insert_ne in Ha by done. by apply (H1 j).
    + intros Hlo j Hj Hp a b Ha Hb.
      pose proof (parent_below (parent pos) ltac:(lia)) as Hgp.
      rewrite list_lookup_insert_ne in Ha by lia.
      assert (key a ≤ key x)%N as Hax.
      { apply (H1 (parent pos)); [lia| |lia|lia|done..].
        apply descends_le. apply descends_parent; [done|lia]. }
      destruct (decide (j = pos)) as [->|Hjpos].
      * rewrite list_lookup_insert_eq in Hb by done. by injection Hb as <-.
      * rewrite list_lookup_insert_ne in Hb by done.
        assert (key x ≤ key b)%N; [|lia].
        apply (H1 j); [done| |lia|done| |done].
        -- rewrite Hp. by apply descends_le.
        -- by rewrite Hp.
  - intros j y Hj Hp Hy.
    destruct (decide (j = pos)) as [->|Hjpos].
    + rewrite list_lookup_insert_eq in Hy by done. injection Hy as <-. lia.
    + rewrite list_lookup_insert_ne in Hy by done.
      assert (key x ≤ key y)%N; [|lia].
      apply (H1 j); [done| |lia|done| |done].
      * rewrite Hp. by apply descends_le.
      * by rewrite Hp.
  - by exists heap', pos'.
Qed.

(** [_siftdown] from a slot without children puts the heap in order from
    [startpos] on. *)
Lemma siftdown_ordered heap startpos pos :
  pos < length heap → Forall P heap → descends startpos pos →
  length heap ≤ 2 * pos + 1 →
  gap_ordered key startpos heap pos →
  ∃ heap', heapq.siftdown item_lt heap startpos pos = Returned heap'
           ∧ heap_ordered_from key startpos heap'.
Proof.
  intros Hpos HP Hdesc Hleaf Hgap. unfold heapq.siftdown.
  destruct (getitem_Returned P heap pos) as (newitem & Hlook & -> & Hnew);
    [done..|]. simpl.
  destruct (siftdown_loop_ordered pos heap startpos pos newitem)
    as (heap' & pos' & -> & Hpos' & Hord); [done..| |].
  { intros j y Hj Hp Hy. apply lookup_lt_Some in Hy.
    destruct (parent_children j Hj); lia. }
  simpl. rewrite setitem_Returned by done. by eexists.
Qed.

Lemma siftup_loop_ordered fuel heap startpos pos childpos :
  pos < length heap → childpos = 2 * pos + 1 →
  length heap ≤ childpos + fuel → Forall P heap →
  descends startpos pos → gap_ordered key startpos heap pos →
  ∃ heap' pos',
    heapq.siftup_loop item_lt fuel heap (length heap) pos childpos
    = Returned (heap', pos')
    ∧ pos' < length heap' ∧ Forall P heap'
    ∧ descends startpos pos' ∧ length heap' ≤ 2 * pos' + 1
    ∧ gap_ordered key startpos heap' pos'.
Proof.
  revert heap pos childpos.
  induction fuel as [|fuel IH];
    intros heap pos childpos Hpos Hchild Hfuel HP Hdesc Hgap.
  { exists heap, pos. simpl. rewrite decide_False by lia.
    split_and!; [done..|lia|done]. }
  simpl. case_decide as Hend.
  2:{ exists heap, pos. split_and!; [done..|lia|done]. }
  assert (∃ c child,
    (if decide (childpos + 1 < length heap) then
       child <- getitem heap childpos ;;
       right_ <- getitem heap (childpos + 1) ;;
       smaller <- item_lt child right_ ;;
       Returned (if negb smaller then childpos + 1 else childpos)
     else Returned childpos) = Returned c
    ∧ c < length heap ∧ parent c = pos ∧ 0 < c
    ∧ heap !! c = Some child
    ∧ ∀ j y, 0 < j → parent j = pos → heap !! j = Some y →
             (key child ≤ key y)%N)
    as (c & child & -> & Hc & Hpc & Hc0 & Hlook & Hmin).
  { destruct (lookup_lt_is_Some_2 heap childpos Hend) as [l Hl].
    assert (parent childpos = pos) as Hpl by (subst; apply parent_left).
    assert (parent (childpos + 1) = pos) as Hpr.
    { subst. replace (2 * pos + 1 + 1) with (2 * pos + 2) by lia.
      apply parent_right. }
    case_decide as Hright.
    - destruct (lookup_lt_is_Some_2 heap (childpos + 1) Hright) as [r Hr].
      unfold getitem. rewrite Hl, Hr. simpl.
      rewrite item_lt_key by by eapply Forall_lookup_1. simpl.
      destruct (N.ltb_spec (key l) (key r)) as [Hlt|Hge]; simpl.
      + exists childpos, l. split_and!; [done..|lia|done|].
        intros j y Hj Hp Hy. destruct (parent_children j Hj) as [Hj'|Hj'];
          rewrite Hp in Hj'.
        * replace j with childpos in Hy by lia. rewrite Hl in Hy.
          injection Hy as <-. lia.
        * replace j with (childpos + 1) in Hy by lia. rewrite Hr in Hy.
          injection Hy as <-. lia.
      + exists (childpos + 1), r. split_and!; [done..|lia|done|].
        intros j y Hj Hp Hy. destruct (parent_children j Hj) as [Hj'|Hj'];
          rewrite Hp in Hj'.
        * replace j with childpos in Hy by lia. rewrite Hl in Hy.
          injection Hy as <-. lia.
        * replace j with (childpos + 1) in Hy by lia. rewrite Hr in Hy.
          injection Hy as <-. lia.
    - exists childpos, l. split_and!; [done..|lia|done|].
      intros j y Hj Hp Hy. destruct (parent_children j Hj) as [Hj'|Hj'];
        rewrite Hp in Hj'.
      + replace j with childpos in Hy by lia. rewrite Hl in Hy.
        injection Hy as <-. lia.
      + apply lookup_lt_Some in Hy. lia. }
  simpl. unfold getitem at 1. rewrite Hlook. simpl.
  rewrite setitem_Returned by done. simpl.
  pose proof (parent_below c Hc0) as Hpcc. rewrite Hpc in Hpcc.
  destruct Hgap as [H1 H3].
  destruct (IH (<[pos:=child]> heap) c (c + (c + 0) + 1))
    as (heap' & pos' & Hrun & Hpos' & HP' & Hdesc' & Hleaf' & Hgap').
  - by rewrite length_insert.
  - lia.
  - rewrite length_insert. destruct (parent_children c Hc0); lia.
  - apply Forall_insert; [done|]. by eapply Forall_lookup_1.
  - apply descends_child; [done|]. by rewrite Hpc.
  - split.
    + intros j Hj Hlo Hp Hne a b Ha Hb.
      pose proof (parent_below j Hj) as Hpj.
      destruct (decide (j = pos)) as [->|Hjpos].
      * rewrite list_lookup_insert_eq in Hb by done. injection Hb as <-.
        rewrite list_lookup_insert_ne in Ha by lia.
        apply (H3 ltac:(lia) c Hc0 Hpc a child); done.
      * rewrite list_lookup_insert_ne in Hb by done.
        destruct (decide (parent j = pos)) as [Hppos|Hppos].
        -- rewrite Hppos, list_lookup_insert_eq in Ha by done.
           injection Ha as <-. by apply (Hmin j).
        -- rewrite list_lookup_insert_ne in Ha by done. by apply (H1 j).
    + intros Hlo j Hj Hp a b Ha Hb.
      pose proof (parent_below j Hj) as Hpj.
      rewrite Hpc, list_lookup_insert_eq in Ha by done. injection Ha as <-.
      rewrite list_lookup_insert_ne in Hb by lia.
      apply (H1 j); [done| |lia|lia| |done].
      * rewrite Hp. apply descends_le in Hdesc. lia.
      * by rewrite Hp.
  - rewrite length_insert in Hrun. rewrite Hrun.
    by exists heap', pos'.
Qed.

(** [_siftup] at [pos] puts the heap in order from [pos] on, when it was in
    order after [pos]. *)
Lemma siftup_ordered heap pos :
  pos < length heap → Forall P heap → heap_ordered_from key (S pos) heap →
  ∃ heap', heapq.siftup item_lt heap pos = Returned heap'
           ∧ heap' ≡ₚ heap ∧ heap_ordered_from key pos heap'.
Proof.
  intros Hpos HP Hord.
  destruct (siftup_Returned item_lt P item_lt_total heap pos)
    as (heap'' & Hrun & Hperm); [done..|].
  exists heap''. split_and!; [done..|].
  unfold heapq.siftup in Hrun.
  destruct (getitem_Returned P heap pos) as (newitem & Hlook & Hget & Hnew);
    [done..|]. rewrite Hget in Hrun. simpl in Hrun.
  destruct (siftup_loop_ordered (length heap) heap pos pos (pos + (pos + 0) + 1))
    as (heap' & pos' & Hloop & Hpos' & HP' & Hdesc' & Hleaf' & Hgap');
    [done|lia|lia|done|constructor| |].
  { split; [|lia]. intros j Hj Hlo Hp Hne. apply Hord; [done|lia]. }
  rewrite Hloop in Hrun. simpl in Hrun.
  rewrite setitem_Returned in Hrun by done. simpl in Hrun.
  destruct (siftdown_ordered (<[pos':=newitem]> heap') pos pos')
    as (heap3 & Hdown & Hord3).
  - by rewrite length_insert.
  - by apply Forall_insert.
  - done.
  - by rewrite length_insert.
  - by apply gap_ordered_insert.
  - rewrite Hdown in Hrun. by injection Hrun as <-.
Qed.

(** [heappush] keeps the heap in order. *)
Lemma heappush_ordered heap item :
  Forall P heap → P item → heap_ordered key heap →
  ∃ heap', heapq.heappush item_lt heap item = Returned heap'
           ∧ heap' ≡ₚ item :: heap ∧ heap_ordered key heap'.
Proof.
  intros HP Hitem Hord.
  destruct (heappush_Returned item_lt P item_lt_total heap item)
    as (heap'' & Hrun & Hperm); [done..|].
  exists heap''. split_and!; [done..|].
  unfold heapq.heappush in Hrun.
  destruct (siftdown_ordered (heap ++ [item]) 0 (length (heap ++ [item]) - 1))
    as (heap' & Hdown & Hord').
  - rewrite length_app. simpl. lia.
  - apply Forall_app. auto.
  - apply descends_root.
  - rewrite length_app. simpl. lia.
  - rewrite length_app. simpl.
    replace (length heap + 1 - 1) with (length heap) by lia. split.
    + intros j Hj Hlo Hp Hne a b Ha Hb.
      pose proof (parent_below j Hj).
      assert (j < length heap).
      { apply lookup_lt_Some in Hb. rewrite length_app in Hb. simpl in Hb. lia. }
      rewrite lookup_app_l in Ha, Hb by lia. by apply (Hord j).
    + intros _ j Hj Hp a b Ha Hb. apply lookup_lt_Some in Hb.
      rewrite length_app in Hb. simpl in Hb. pose proof (parent_below j Hj). lia.
  - rewrite Hdown in Hrun. by injection Hrun as <-.
Qed.

(** The root of a heap in order is a smallest item. *)
Lemma heap_ordered_root heap x :
  heap_ordered key heap → heap !! 0 = Some x →
  ∀ y, y ∈ heap → (key x ≤ key y)%N.
Proof.
  intros Hord Hx y [j Hy]%list_elem_of_lookup. revert y Hy.
  induction (lt_wf j) as [j _ IH]. intros y Hy.
  destruct j as [|j]; [by assert (x = y) as -> by congruence|].
  pose proof (parent_below (S j) ltac:(lia)) as Hp.
  destruct (lookup_lt_is_Some_2 heap (parent (S j))) as [z Hz].
  { apply lookup_lt_Some in Hy. lia. }
  specialize (IH _ Hp z Hz).
  assert (key z ≤ key y)%N; [|lia].
  apply (Hord (S j)); [lia|lia|done..].
Qed.

(** [heappop] takes a smallest item off a heap in order, and leaves a heap
    in order. *)
Lemma heappop_ordered heap :
  heap ≠ [] → Forall P heap → heap_ordered key heap →
  ∃ item heap',
    heapq.heappop item_lt heap = Returned (item, heap')
    ∧ item :: heap' ≡ₚ heap
    ∧ heap_ordered key heap'
    ∧ ∀ y, y ∈ heap' → (key item ≤ key y)%N.
Proof.
  intros Hne HP Hord.
  destruct (heappop_Returned item_lt P item_lt_total heap)
    as (item & heap'' & Hrun & Hperm); [done..|].
  exists item, heap''. split_and!; [done..| |].
  - destruct heap as [|x heap _] using rev_ind; [done|].
    unfold heapq.heappop in Hrun. rewrite pop_snoc in Hrun. simpl in Hrun.
    apply Forall_app in HP as [HP Hx%Forall_inv].
    destruct heap as [|returnitem heap].
    { injection Hrun as <- <-. intros j Hj _ a b _ Hb. done. }
    simpl in Hrun.
    destruct (siftup_ordered (x :: heap) 0) as (heap' & Hup & _ & Hord').
    + simpl. lia.
    + apply Forall_inv_tail in HP. by constructor.
    + intros j Hj Hlo a b Ha Hb.
      pose proof (parent_below j Hj).
      assert (j < S (length heap)) by by apply lookup_lt_Some in Hb.
      destruct j as [|j]; [lia|]. destruct (parent (S j)) as [|p] eqn:Ep; [lia|].
      simpl in Ha, Hb.
      apply (Hord (S j)); [lia|lia|rewrite Ep|]; simpl.
      * rewrite lookup_app_l by lia. done.
      * rewrite lookup_app_l by (simpl in *; lia). done.
    + rewrite Hup in Hrun. by injection Hrun as <- <-.
  - intros y Hy.
    assert (heap !! 0 = Some item) as Hroot.
    { destruct heap as [|x heap _] using rev_ind; [done|].
      unfold heapq.heappop in Hrun. rewrite pop_snoc in Hrun. simpl in Hrun.
      destruct heap as [|returnitem heap].
      - by injection Hrun as <- <-.
      - simpl in Hrun. destruct (heapq.siftup _ _ _); [|done..].
        simpl in Hrun. by injection Hrun as <- <-. }
    apply (heap_ordered_root heap item Hord Hroot).
    rewrite <-Hperm. by right.
Qed.

Lemma heapify_loop_ordered x k :
  k ≤ length x → Forall P x → heap_ordered_from key k x →
  ∃ x', for_each (heapq.siftup item_lt) x (reverse (seq 0 k)) = Returned x'
        ∧ x' ≡ₚ x ∧ heap_ordered key x'.
Proof.
  revert x. induction k as [|k IH]; intros x Hk HP Hord.
  { by exists x. }
  rewrite seq_S, reverse_app. simpl.
  destruct (siftup_ordered x k) as (x1 & -> & Hperm1 & Hord1); [lia|done..|].
  simpl. destruct (IH x1) as (x' & -> & Hperm & Hord').
  - rewrite (Permutation_length Hperm1). lia.
  - by rewrite Hperm1.
  - done.
  - exists x'. split_and!; [done| |done]. by rewrite Hperm.
Qed.

(** [heapify] puts any list in order. *)
Lemma heapify_ordered x :
  Forall P x →
  ∃ x', heapq.heapify item_lt x = Returned x'
        ∧ x' ≡ₚ x ∧ heap_ordered key x'.
Proof.
  intros HP. apply heapify_loop_ordered; [|done|].
  - pose proof (Nat.Div0.div_le_upper_bound (length x) 2 (length x)). lia.
  - intros j Hj Hlo a b _ Hb. apply lookup_lt_Some in Hb.
    pose proof (Nat.div_mod_eq (length x) 2) as Hdiv.
    pose proof (Nat.mod_upper_bound (length x) 2 ltac:(lia)).
    destruct (parent_children j Hj); lia.
Qed.
End heap_order.

(** ** The lighter tree goes left *)

Lemma lt_weight a b :
  comparable a → comparable b →
  __lt__ a b = Returned (weight a <? weight b)%N.
Proof. unfold __lt__, weight. by intros [x ->] [y ->]. Qed.

Lemma HuffmanCodeNonLeaf_siblings l r :
  comparable l → comparable r → (weight l ≤ weight r)%N →
  siblings_ordered l → siblings_ordered r →
  siblings_ordered (HuffmanCodeNonLeaf l r).
Proof.
  unfold HuffmanCodeNonLeaf, weight. intros [cl Hl] [cr Hr].
  rewrite Hl, Hr. simpl. intros Hle Hsl Hsr.
  split_and!; [|done..]. by exists cl, cr.
Qed.

(** Every turn of the merge loop pops the two trees of least count, the
    lesser of them first. *)
Lemma for_symbols_loop_siblings fuel trees :
  trees ≠ [] → length trees ≤ S fuel →
  Forall comparable trees → Forall siblings_ordered trees →
  heap_ordered weight trees →
  ∃ t, for_symbols_loop fuel trees = Returned [t] ∧ siblings_ordered t.
Proof.
  revert trees.
  induction fuel as [|fuel IH]; intros trees Hne Hfuel Hcmp Hsib Hord.
  { destruct trees as [|t [|??]]; simpl in *; [done| |lia].
    exists t. split; [done|]. by apply Forall_inv in Hsib. }
  simpl. case_decide as Hlen.
  2:{ destruct trees as [|t [|??]]; simpl in *; [done| |lia].
      exists t. split; [done|]. by apply Forall_inv in Hsib. }
  destruct (heappop_ordered __lt__ comparable weight lt_weight trees)
    as (l & trees1 & -> & Hperm1 & Hord1 & Hmin1); [done..|]. simpl.
  assert (Forall comparable (l :: trees1)) as [Hl Hcmp1]%Forall_cons
    by by rewrite Hperm1.
  assert (Forall siblings_ordered (l :: trees1)) as [Hsl Hsib1]%Forall_cons
    by by rewrite Hperm1.
  pose proof (Permutation_length Hperm1) as Hlen1. simpl in Hlen1.
  destruct (heappop_ordered __lt__ comparable weight lt_weight trees1)
    as (r & trees2 & -> & Hperm2 & Hord2 & Hmin2);
    [by destruct trees1; simpl in *; try lia|done..|].
  simpl.
  assert (Forall comparable (r :: trees2)) as [Hr Hcmp2]%Forall_cons
    by by rewrite Hperm2.
  assert (Forall siblings_ordered (r :: trees2)) as [Hsr Hsib2]%Forall_cons
    by by rewrite Hperm2.
  pose proof (Permutation_length Hperm2) as Hlen2. simpl in Hlen2.
  assert (weight l ≤ weight r)%N as Hle.
  { apply Hmin1. rewrite <-Hperm2. by left. }
  destruct (heappush_ordered __lt__ comparable weight lt_weight trees2
              (HuffmanCodeNonLeaf l r))
    as (trees3 & -> & Hperm3 & Hord3);
    [done|by apply HuffmanCodeNonLeaf_comparable|done|].
  simpl.
  pose proof (Permutation_length Hperm3) as Hlen3. simpl in Hlen3.
  destruct (IH trees3) as (t & -> & Ht).
  - by destruct trees3.
  - lia.
  - rewrite Hperm3. constructor; [|done].
    by apply HuffmanCodeNonLeaf_comparable.
  - rewrite Hperm3. constructor; [|done].
    by apply HuffmanCodeNonLeaf_siblings.
  - done.
  - by exists t.
Qed.

Lemma initial_siblings (counts : list (N * N)) :
  Forall siblings_ordered
    (map (λ '(symbol, count), HuffmanCodeLeaf (Some count) symbol) counts).
Proof. induction counts as [|[s c] counts IH]; by constructor. Qed.

(** X22. In the tree [for_symbols] builds, the left child of every inner
    node has a count no larger than the right child: each merge takes the
    tree of least count off the heap first, then the least of the rest. *)
Theorem for_symbols_siblings_ordered (symbols : list N) :
  symbols ≠ [] →
  ∃ t, for_symbols symbols = Returned t ∧ siblings_ordered t.
Proof.
  intros Hne. destruct (for_symbols_Returned symbols Hne) as (t & Ht & _).
  exists t. split; [done|]. unfold for_symbols in Ht.
  destruct (heapify_ordered __lt__ comparable weight lt_weight _
              (initial_comparable (Counter symbols)))
    as (trees & Hheap & Hperm & Hord).
  rewrite Hheap in Ht. simpl in Ht.
  destruct (for_symbols_loop_siblings (length trees) trees)
    as (t' & Hloop & Ht').
  - intros ->. by simpl in Ht.
  - lia.
  - rewrite Hperm. apply initial_comparable.
  - rewrite Hperm. apply initial_siblings.
  - done.
  - rewrite Hloop in Ht. simpl in Ht. by injection Ht as <-.
Qed.

Lemma for_symbols_siblings_ordered_witness :
  ∃ t, for_symbols [1; 2; 1; 1; 0; 7; 7; 3]%N = Returned t
       ∧ siblings_ordered t.
Proof. by apply for_symbols_siblings_ordered. Defined.

(** ** Codewords are short *)

Lemma depth_lt_leaves t : depth t < length (leaves t).
Proof.
  induction t as [c s|c l IHl r IHr]; simpl; [lia|].
  rewrite length_app. lia.
Qed.

(** X23. The tree has as many leaves as the sequence has distinct symbols,
    and every codeword has fewer bits than that. *)
Theorem codeword_shorter_than_alphabet (symbols : list N) :
  symbols ≠ [] →
  ∃ t, for_symbols symbols = Returned t
       ∧ length (leaves t) = length (remove_dups symbols)
       ∧ ∀ s codeword,
           symbol_prefix_map t !! s = Some codeword →
           length codeword < length (remove_dups symbols).
Proof.
  intros Hne. destruct (for_symbols_Returned symbols Hne) as (t & Ht & Hl).
  exists t. split; [done|].
  assert (length (leaves t) = length (remove_dups symbols)) as Hlen.
  { apply Permutation_length. rewrite Hl.
    apply NoDup_Permutation; [apply Counter_NoDup|apply NoDup_remove_dups|].
    intros s. by rewrite Counter_keys, elem_of_remove_dups. }
  split; [done|]. intros s codeword [c Hc]%symbol_prefix_map_lookup.
  specialize (Hc []). rewrite app_nil_r in Hc.
  apply walk_length in Hc. pose proof (depth_lt_leaves t). lia.
Qed.

Lemma codeword_shorter_than_alphabet_witness :
  ∃ t, for_symbols [1; 2; 1; 1; 0]%N = Returned t
       ∧ length (leaves t) = length (remove_dups [1; 2; 1; 1; 0]%N)
       ∧ ∀ s codeword,
           symbol_prefix_map t !! s = Some codeword →
           length codeword < length (remove_dups [1; 2; 1; 1; 0]%N).
Proof. by apply codeword_shorter_than_alphabet. Defined.

(** ** Masks through the codec *)

(** X24. [compress] never raises: every mask, the empty one too, has at
    least one zero run, so the tree is built, and the output has the
    serialized tree in it, which is two bits or more. *)
Theorem compress_Returned (self : LivenessMask) :
  ∃ bits, compress self = Returned bits ∧ 2 ≤ length bits.
Proof.
  unfold compress.
  destruct (huffman_compress_Returned (to_rle self))
    as (t & cs & _ & _ & ->).
  { pose proof (length_to_rle self). by destruct (to_rle self). }
  eexists. split; [done|]. rewrite length_app.
  destruct t as [c s|c l r].
  - rewrite serialize_leaf. simpl. rewrite length_app. simpl. lia.
  - simpl. rewrite length_app.
    pose proof (depth_lt_serialize l). pose proof (depth_lt_serialize r). lia.
Qed.
